(** * FractionalStay: the blockchain-to-database indexer

    A shallow embedding of the indexer that the repository's
    synchronization architecture notes describe (the document
    "Blockchain -> Database Synchronization Architecture"): the
    [indexer_state] and [blockchain_events] tables, the application
    tables written by [handleSharesPurchased], the reorg protection
    mechanism and the failure scenarios.

    Every call to the database is a separate, immediately persisted
    request (the handlers [await] one Supabase call after another, and
    "Scenario 2: Database Write Fails" keeps the stored raw event after
    the following update failed), so the model threads a world through
    a monad in which an exception keeps the writes made so far.

    The definitions come first, the general lemmas after them, and the
    ten claims about the indexer (C1 to C10) last, each with its
    theorem and, where the code departs from the claim, the run that
    shows it. *)

From Stdlib Require Import ZArith List String Ascii Bool Lia Sorted.
Import ListNotations.

Local Open Scope string_scope.
Local Open Scope Z_scope.

(** ** Tables

    Block numbers, amounts and log indexes are BIGINT and INTEGER
    columns; they are taken in [Z], timestamps too (as seconds). *)

(** [indexer_state]: one row per contract.
<<
    contract_address TEXT PRIMARY KEY, last_processed_block BIGINT,
    last_block_hash TEXT, last_checkpoint_block BIGINT,
    last_checkpoint_hash TEXT, updated_at TIMESTAMPTZ
>> *)
Record indexer_state_row : Type := mkState {
  contract_address : string;
  last_processed_block : Z;
  last_block_hash : string;
  last_checkpoint_block : Z;
  last_checkpoint_hash : string;
  updated_at : Z
}.

(** The [args] JSONB column of a [SharesPurchased] event:
    [{ tokenId: 1, buyer: '0x...', amount: 10 }] with the total price. *)
Record EventArgs : Type := mkArgs {
  tokenId : Z;
  buyer : string;
  amount : Z;
  totalPrice : Z
}.

(** [blockchain_events], the audit log; the generated [id] is left out.
    [UNIQUE (transaction_hash, log_index)]. *)
Record blockchain_event : Type := mkRaw {
  event_name : string;
  event_contract : string;
  block_number : Z;
  transaction_hash : string;
  log_index : Z;
  args : EventArgs;
  processed_at : Z
}.

(** [properties]: the column the handler writes, under its key. *)
Record property_row : Type := mkProperty {
  token_id : Z;
  available_shares : Z
}.

(** [user_portfolio]: natural key (wallet_address, token_id), the
    balance, and the [last_updated] column the rollback deletes by. *)
Record portfolio_row : Type := mkPortfolio {
  wallet_address : string;
  portfolio_token : Z;
  shares_owned : Z;
  last_updated : Z
}.

Record db : Type := mkDb {
  indexer_state : list indexer_state_row;
  blockchain_events : list blockchain_event;
  properties : list property_row;
  user_portfolio : list portfolio_row
}.

(** A decoded event as a handler receives it: the arguments and the
    place of the log on the chain. *)
Record DecodedEvent : Type := mkEvent {
  ev_args : EventArgs;
  ev_contract : string;
  ev_block : Z;
  ev_tx : string;
  ev_index : Z
}.

(** A log as the chain client returns it. *)
Record RawLog : Type := mkLog {
  log_address : string;
  log_block : Z;
  log_block_hash : string;
  log_tx : string;
  log_position : Z;
  log_topics : list string;
  log_data : string
}.

Definition set_indexer_state (d : db) (s : list indexer_state_row) : db :=
  mkDb s (blockchain_events d) (properties d) (user_portfolio d).

Definition set_blockchain_events (d : db) (l : list blockchain_event) : db :=
  mkDb (indexer_state d) l (properties d) (user_portfolio d).

Definition set_properties (d : db) (l : list property_row) : db :=
  mkDb (indexer_state d) (blockchain_events d) l (user_portfolio d).

Definition set_user_portfolio (d : db) (l : list portfolio_row) : db :=
  mkDb (indexer_state d) (blockchain_events d) (properties d) l.

(** The application tables, the materialized view of the chain. *)
Definition derived (d : db) : list property_row * list portfolio_row :=
  (properties d, user_portfolio d).

(** ** Address normalization

    [address.toLowerCase()] and SQL [LOWER], on the ASCII letters an
    address is written with. *)
Definition lower_ascii (c : ascii) : ascii :=
  let n := nat_of_ascii c in
  if (Nat.leb 65 n && Nat.leb n 90)%bool then ascii_of_nat (n + 32) else c.

Fixpoint toLowerCase (s : string) : string :=
  match s with
  | EmptyString => EmptyString
  | String c rest => String (lower_ascii c) (toLowerCase rest)
  end.

(** [CONSTRAINT wallet_lowercase CHECK (wallet_address = LOWER(wallet_address))] *)
Definition wallet_lowercase (r : portfolio_row) : bool :=
  String.eqb (wallet_address r) (toLowerCase (wallet_address r)).

(** ** The world and the monad of indexer code *)

Inductive error : Type :=
| NetworkError      (* a request to the database or to the RPC node failed *)
| InvalidAmount     (* new Error('Invalid amount') *)
| InvalidAddress    (* new Error('Invalid address') *)
| CheckViolation.   (* a row rejected by a CHECK constraint *)

(** [faults] is what the network does to the requests still to come,
    [true] for a request that fails; past its end every request goes
    through.  [applied] is a history variable: the (transaction hash,
    log index) of every event for which a write to an application table
    went through.  [error_log] is the indexer's error-level log. *)
Record world : Type := mkWorld {
  database : db;
  faults : list bool;
  applied : list (string * Z);
  error_log : list RawLog
}.

Inductive outcome (A : Type) : Type :=
| Done (a : A) (w : world)
| Threw (e : error) (w : world).
Arguments Done {A} a w.
Arguments Threw {A} e w.

Definition M (A : Type) : Type := world -> outcome A.

Definition ret {A : Type} (a : A) : M A := fun w => Done a w.

Definition bind {A B : Type} (m : M A) (k : A -> M B) : M B :=
  fun w =>
    match m w with
    | Done a w' => k a w'
    | Threw e w' => Threw e w'
    end.

Definition throw {A : Type} (e : error) : M A := fun w => Threw e w.

Notation "x <- m ;; k" := (bind m (fun x => k))
  (at level 61, m at next level, right associativity).
Notation "m ;; k" := (bind m (fun _ => k))
  (at level 61, right associativity).

(** The world a run leaves behind, whether it returned or threw. *)
Definition world_of {A : Type} (o : outcome A) : world :=
  match o with
  | Done _ w => w
  | Threw _ w => w
  end.

Definition returned {A : Type} (o : outcome A) : bool :=
  match o with
  | Done _ _ => true
  | Threw _ _ => false
  end.

Definition set_database (w : world) (d : db) : world :=
  mkWorld d (faults w) (applied w) (error_log w).

Definition set_faults (w : world) (f : list bool) : world :=
  mkWorld (database w) f (applied w) (error_log w).

(** One request to the database: it fails on the network, or the
    statement runs and its effect is persisted at once. *)
Definition request {A : Type} (stmt : db -> error + (A * db)) : M A :=
  fun w =>
    let run (w0 : world) :=
      match stmt (database w0) with
      | inr (a, d) => Done a (set_database w0 d)
      | inl e => Threw e w0
      end in
    match faults w with
    | true :: rest => Threw NetworkError (set_faults w rest)
    | false :: rest => run (set_faults w rest)
    | [] => run w
    end.

(** History: a write to an application table went through for [ev]. *)
Definition mark_applied (ev : DecodedEvent) : M unit :=
  fun w => Done tt (mkWorld (database w) (faults w)
                            (applied w ++ [(ev_tx ev, ev_index ev)])
                            (error_log w)).

(** ** Statements on the tables *)

Definition same_event (tx : string) (index : Z) (r : blockchain_event) : bool :=
  (String.eqb tx (transaction_hash r) && (index =? log_index r))%bool.

(** Is there a row for this (transaction_hash, log_index)? *)
Definition recorded (tx : string) (index : Z) (l : list blockchain_event) : bool :=
  existsb (same_event tx index) l.

Definition raw_event (name : string) (ev : DecodedEvent) (now : Z) : blockchain_event :=
  mkRaw name (ev_contract ev) (ev_block ev) (ev_tx ev) (ev_index ev) (ev_args ev) now.

(** [INSERT INTO blockchain_events]: the unique constraint rejects a
    second row for the pair, and "duplicate inserts fail silently". *)
Definition insert_event (r : blockchain_event) (d : db) : db :=
  if recorded (transaction_hash r) (log_index r) (blockchain_events d)
  then d
  else set_blockchain_events d (blockchain_events d ++ [r]).

Definition same_holding (wallet : string) (token : Z) (r : portfolio_row) : bool :=
  (String.eqb wallet (wallet_address r) && (token =? portfolio_token r))%bool.

(** [available_shares: sql`available_shares - ${amount}`] on the rows
    with [.eq('token_id', tokenId)]. *)
Definition decrement_available (token amt : Z) (p : property_row) : property_row :=
  if token =? token_id p
  then mkProperty (token_id p) (available_shares p - amt)
  else p.

(** "Increment shares" of the holding (atomic increment, [shares + 10]
    and not [= 10]); [last_updated] is the time of the write
    ([last_updated = NOW()] in the purchase flow notes). *)
Definition increment_shares (wallet : string) (token amt now : Z)
    (r : portfolio_row) : portfolio_row :=
  if same_holding wallet token r
  then mkPortfolio (wallet_address r) (portfolio_token r) (shares_owned r + amt) now
  else r.

Section Indexer.

(** [isAddress] of the Ethereum library the indexer imports. *)
Variable isAddress : string -> bool.

(** The result of the Event Decoder on a log. *)
Inductive decoded : Type :=
| Decoded (a : EventArgs)
| DecodeError (reason : string).

(** The Event Decoder, [decode(RawLog, eventABI)]; its code is not part
    of the notes, it is a pure function of the log. *)
Variable decode : RawLog -> decoded.

(** *** The calls of a handler *)

(** [storeEvent]: "Store raw event (unique constraint prevents duplicates)". *)
Definition storeEvent (name : string) (ev : DecodedEvent) (now : Z) : M unit :=
  request (fun d => inr (tt, insert_event (raw_event name ev now) d)).

Definition updateProperties (token amt : Z) : M unit :=
  request (fun d =>
    inr (tt, set_properties d (map (decrement_available token amt) (properties d)))).

Definition getPortfolio (wallet : string) (token : Z) : M (option portfolio_row) :=
  request (fun d => inr (find (same_holding wallet token) (user_portfolio d), d)).

Definition updatePortfolio (wallet : string) (token amt now : Z) : M unit :=
  request (fun d =>
    inr (tt, set_user_portfolio d
               (map (increment_shares wallet token amt now) (user_portfolio d)))).

(** "Create new entry"; the table carries [CONSTRAINT wallet_lowercase]. *)
Definition createPortfolio (wallet : string) (token amt now : Z) : M unit :=
  request (fun d =>
    let r := mkPortfolio wallet token amt now in
    if wallet_lowercase r
    then inr (tt, set_user_portfolio d (user_portfolio d ++ [r]))
    else inl CheckViolation).

(** "Validate event args before processing":
<<
    if (amount <= 0) throw new Error('Invalid amount')
    if (!isAddress(buyer)) throw new Error('Invalid address')
>> *)
Definition validateArgs (a : EventArgs) : M unit :=
  if amount a <=? 0 then throw InvalidAmount
  else if negb (isAddress (buyer a)) then throw InvalidAddress
  else ret tt.

Definition valid_args (a : EventArgs) : bool :=
  (negb (amount a <=? 0) && isAddress (buyer a))%bool.

(** *** handleSharesPurchased
<<
    async function handleSharesPurchased(tokenId, buyer, amount, totalPrice, ...) {
      // 1. Store raw event (unique constraint prevents duplicates)
      await storeEvent('SharesPurchased', ...)
      // 2. Update properties (upsert is idempotent)
      await supabase.from('properties')
        .update({ available_shares: sql`available_shares - ${amount}` })
        .eq('token_id', tokenId)
      // 3. Update portfolio (upsert is idempotent)
      const existing = await getPortfolio(buyer, tokenId)
      if (existing) { await updatePortfolio(...) } else { await createPortfolio(...) }
    }
>>
    The arguments are validated first and the wallet is put in lower
    case before it is used as a key ("Always lowercase addresses":
    [const wallet = address.toLowerCase()]).  [mark_applied] is no
    code of the handler: it notes in the history that a write to an
    application table went through. *)
Definition handleSharesPurchased (ev : DecodedEvent) (now : Z) : M unit :=
  let a := ev_args ev in
  validateArgs a ;;
  storeEvent "SharesPurchased" ev now ;;
  updateProperties (tokenId a) (amount a) ;;
  mark_applied ev ;;
  let wallet := toLowerCase (buyer a) in
  existing <- getPortfolio wallet (tokenId a) ;;
  match existing with
  | Some _ => updatePortfolio wallet (tokenId a) (amount a) now
  | None => createPortfolio wallet (tokenId a) (amount a) now
  end ;;
  mark_applied ev.

(** Steps 2 and 3 of the handler alone, the writes to the application
    tables. *)
Definition applyDerived (ev : DecodedEvent) (now : Z) : M unit :=
  let a := ev_args ev in
  updateProperties (tokenId a) (amount a) ;;
  mark_applied ev ;;
  let wallet := toLowerCase (buyer a) in
  existing <- getPortfolio wallet (tokenId a) ;;
  match existing with
  | Some _ => updatePortfolio wallet (tokenId a) (amount a) now
  | None => createPortfolio wallet (tokenId a) (amount a) now
  end ;;
  mark_applied ev.

(** The events of a batch go through their handler one after the
    other; an exception ends the batch. *)
Fixpoint processEvents (now : Z) (evs : list DecodedEvent) : M unit :=
  match evs with
  | [] => ret tt
  | ev :: rest => handleSharesPurchased ev now ;; processEvents now rest
  end.

(** *** The chain, as the RPC node shows it during one run *)

Record chain : Type := mkChain {
  latestBlock : Z;
  hash_at : Z -> string;
  timestamp_at : Z -> Z;
  chain_logs : list RawLog
}.

(** A request to the RPC node: it fails like any other request and
    leaves the database alone. *)
Definition rpc {A : Type} (a : A) : M A :=
  request (fun d => inr (a, d)).

Definition getLatestBlockNumber (c : chain) : M Z :=
  rpc (latestBlock c).

(** "Fetch block from blockchain": its hash and its timestamp. *)
Definition getBlock (c : chain) (n : Z) : M (string * Z) :=
  rpc (hash_at c n, timestamp_at c n).

Definition in_range (addr : string) (fromBlock toBlock : Z) (l : RawLog) : bool :=
  (String.eqb addr (log_address l)
   && (fromBlock <=? log_block l) && (log_block l <=? toBlock))%bool.

Definition getLogs (c : chain) (addr : string) (fromBlock toBlock : Z)
    : M (list RawLog) :=
  rpc (filter (in_range addr fromBlock toBlock) (chain_logs c)).

(** *** Checkpoint store *)

Definition for_contract (addr : string) (r : indexer_state_row) : bool :=
  String.eqb addr (contract_address r).

(** Modelled from the spec: the checkpoint of a contract that has no
    row yet, which the notes do not describe: [load] "returns a
    zero-valued checkpoint (block 0, no hash) if none exists". *)
Definition zero_state (addr : string) : indexer_state_row :=
  mkState addr 0 "" 0 "" 0.

Definition state_of (addr : string) (d : db) : indexer_state_row :=
  match find (for_contract addr) (indexer_state d) with
  | Some r => r
  | None => zero_state addr
  end.

(** "Load checkpoint from database"; a contract without a row has the
    zero-valued checkpoint. *)
Definition loadState (addr : string) : M indexer_state_row :=
  request (fun d => inr (state_of addr d, d)).

Fixpoint upsert_state (r : indexer_state_row) (l : list indexer_state_row)
    : list indexer_state_row :=
  match l with
  | [] => [r]
  | x :: rest =>
      if for_contract (contract_address r) x then r :: rest
      else x :: upsert_state r rest
  end.

(** The row of the contract is written in one statement ("Set
    last_processed_block = 12399", an [UPDATE indexer_state] in the
    manual rollback); a contract without a row gets its row, as the
    "atomic overwrite" of the checkpoint store's [save]. *)
Definition saveState (r : indexer_state_row) : M unit :=
  request (fun d => inr (tt, set_indexer_state d (upsert_state r (indexer_state d)))).

Definition set_last_processed (r : indexer_state_row) (n : Z) : indexer_state_row :=
  mkState (contract_address r) n (last_block_hash r)
          (last_checkpoint_block r) (last_checkpoint_hash r) (updated_at r).

(** *** Reorg protection
<<
    ACTION:
      1. DELETE FROM blockchain_events WHERE block_number >= 12400
      2. DELETE FROM user_portfolio WHERE last_updated >= block_12400_timestamp
      3. (Cascade deletes other tables)
      4. Set last_processed_block = 12399
      5. Resume processing from 12400
>>
    Step 3 names no table; of the tables of the model none but
    [user_portfolio] is deleted from. *)
Definition deleteEventsFrom (n : Z) : M unit :=
  request (fun d =>
    inr (tt, set_blockchain_events d
               (filter (fun r => block_number r <? n) (blockchain_events d)))).

Definition deletePortfolioSince (ts : Z) : M unit :=
  request (fun d =>
    inr (tt, set_user_portfolio d
               (filter (fun r => last_updated r <? ts) (user_portfolio d)))).

Definition rollback (st : indexer_state_row) (ts : Z) : M unit :=
  deleteEventsFrom (last_checkpoint_block st) ;;
  deletePortfolioSince ts ;;
  saveState (set_last_processed st (last_checkpoint_block st - 1)).

(** On each indexer run:
<<
      1. Load checkpoint from database
      2. Fetch block from blockchain
      3. Compare hashes:
         if (blockHashFromChain === checkpointHash) { continue processing }
         else { Reorg detected: delete all events after checkpoint,
                reprocess from checkpoint }
>>
    The result tells whether a reorg was detected. *)
Definition reorgDetector (addr : string) (c : chain) : M bool :=
  st <- loadState addr ;;
  blk <- getBlock c (last_checkpoint_block st) ;;
  if String.eqb (fst blk) (last_checkpoint_hash st)
  then ret false
  else rollback st (snd blk) ;; ret true.

(** The first block of the next batch: "Resumes from block 12451" with
    last processed block 12450, "Resume processing from 12400" after
    the rollback to 12399. *)
Definition resume_block (st : indexer_state_row) : Z :=
  last_processed_block st + 1.

(** *** The driver *)

(** [CONFIG.confirmationsRequired] (3), [CONFIG.batchSize] (1000) and
    the checkpoint interval (100). *)
Record config : Type := mkConfig {
  confirmationsRequired : Z;
  batchSize : Z;
  checkpointInterval : Z
}.

Definition log_error (l : RawLog) : M unit :=
  fun w => Done tt (mkWorld (database w) (faults w) (applied w) (error_log w ++ [l])).

Definition decoded_event (l : RawLog) (a : EventArgs) : DecodedEvent :=
  mkEvent a (log_address l) (log_block l) (log_tx l) (log_position l).

(** Modelled from the spec: the loop of the Reconciliation Driver over
    the logs of a batch, whose code is not in the notes.  "Decode and
    apply each log via its Event Handler"; on a [DecodeError] "the
    driver logs and skips such logs without halting the batch", "logged
    at error level with the raw log payload preserved for manual
    inspection", "the containing RawLog is simply not recorded". *)
Fixpoint processLogs (now : Z) (logs : list RawLog) : M unit :=
  match logs with
  | [] => ret tt
  | l :: rest =>
      match decode l with
      | Decoded a => handleSharesPurchased (decoded_event l a) now
      | DecodeError _ => log_error l
      end ;;
      processLogs now rest
  end.

(** "Process 1000 blocks per query":
<<
    for (let i = 12000; i <= 13000; i += 1000) {
      const logs = await getLogs({ fromBlock: i, toBlock: i + 1000 })
      await processLogs(logs)
    }
>>
    [turns] counts the turns of the loop that are left. *)
Fixpoint batchTurns (turns : nat) (c : chain) (addr : string) (i now : Z) : M unit :=
  match turns with
  | O => ret tt
  | S n =>
      logs <- getLogs c addr i (i + 1000) ;;
      processLogs now logs ;;
      batchTurns n c addr (i + 1000) now
  end.

Definition batchLoop (c : chain) (addr : string) (first last now : Z) : M unit :=
  batchTurns (Z.to_nat ((last - first) / 1000 + 1)) c addr first now.

(** Modelled from the spec: the checkpoint update after a batch, whose
    code is not in the notes ("State saved -> Checkpoint created",
    "Every 100 blocks: Save checkpoint = { blockNumber, blockHash }").
    "Update checkpoint: lastProcessedBlock = toBlock; every N blocks,
    also update lastCheckpointBlock/Hash to the hash at that height",
    [lastCheckpointBlock] being a "multiple of checkpoint interval":
    when the batch reaches a new multiple of the interval, that block
    and its hash become the checkpoint. *)
Definition saveCheckpoint (cfg : config) (c : chain) (st : indexer_state_row)
    (toBlock now : Z) : M unit :=
  let n := checkpointInterval cfg in
  blk <- getBlock c toBlock ;;
  if last_processed_block st / n <? toBlock / n
  then
    cblk <- getBlock c (toBlock / n * n) ;;
    saveState (mkState (contract_address st) toBlock (fst blk)
                       (toBlock / n * n) (fst cblk) now)
  else
    saveState (mkState (contract_address st) toBlock (fst blk)
                       (last_checkpoint_block st) (last_checkpoint_hash st) now).

(** Modelled from the spec: the upper block of the next batch,
    [toBlock = min(latestChainBlock - confirmationDepth,
    checkpoint.lastProcessedBlock + maxBatchSize)] ("Latest block:
    15000, we process up to: 14997"). *)
Definition nextToBlock (cfg : config) (latest : Z) (st : indexer_state_row) : Z :=
  Z.min (latest - confirmationsRequired cfg)
        (last_processed_block st + batchSize cfg).

(** Modelled from the spec: one turn of the main loop of the
    Reconciliation Driver, whose code is not in the notes: load the
    checkpoint, run the reorg detector, compute [toBlock], "if toBlock
    <= checkpoint.lastProcessedBlock, sleep and retry", fetch the logs
    of [lastProcessedBlock+1 .. toBlock], decode and apply them, update
    the checkpoint.  An exception ends the turn; the next poll starts a
    new one. *)
Definition cycle (cfg : config) (addr : string) (c : chain) (now : Z) : M unit :=
  reorgDetector addr c ;;
  st <- loadState addr ;;
  latest <- getLatestBlockNumber c ;;
  let toBlock := nextToBlock cfg latest st in
  if toBlock <=? last_processed_block st
  then ret tt
  else
    logs <- getLogs c addr (resume_block st) toBlock ;;
    processLogs now logs ;;
    saveCheckpoint cfg c st toBlock now.

End Indexer.

(** ** Rebuilding from the raw events *)

Definition event_of_raw (r : blockchain_event) : DecodedEvent :=
  mkEvent (args r) (event_contract r) (block_number r)
          (transaction_hash r) (log_index r).

(** Modelled from the spec: the rebuild ("Can always rebuild from raw
    events"), whose code is not in the notes.  "Replay all RawEvents in
    stored order" against "empty DerivedEntity state": the writes of
    the handler to the application tables, for each stored row in turn,
    at the time the row was processed. *)
Fixpoint replayEvents (l : list blockchain_event) : M unit :=
  match l with
  | [] => ret tt
  | r :: rest => applyDerived (event_of_raw r) (processed_at r) ;; replayEvents rest
  end.

Definition empty_db : db := mkDb [] [] [] [].

Definition replay (l : list blockchain_event) : list property_row * list portfolio_row :=
  derived (database (world_of (replayEvents l (mkWorld empty_db [] [] [])))).

(** ** The logs of a batch, by what the decoder makes of them *)




(** ** A run of the handler in which no request fails *)

(** Step 3 on the table: the holding is incremented if it exists and
    created if not. *)
Definition upsert_holding (wallet : string) (token amt now : Z)
    (l : list portfolio_row) : list portfolio_row :=
  match find (same_holding wallet token) l with
  | Some _ => map (increment_shares wallet token amt now) l
  | None => l ++ [mkPortfolio wallet token amt now]
  end.

(** The database after the three steps of [handleSharesPurchased]. *)
Definition handled (ev : DecodedEvent) (now : Z) (d : db) : db :=
  let a := ev_args ev in
  mkDb (indexer_state d)
       (blockchain_events (insert_event (raw_event "SharesPurchased" ev now) d))
       (map (decrement_available (tokenId a) (amount a)) (properties d))
       (upsert_holding (toLowerCase (buyer a)) (tokenId a) (amount a) now
                       (user_portfolio d)).

(** Steps 2 and 3 of the handler on the application tables, when no
    request fails. *)
Definition derived_step (ev : DecodedEvent) (now : Z)
    (t : list property_row * list portfolio_row)
    : list property_row * list portfolio_row :=
  (map (decrement_available (tokenId (ev_args ev)) (amount (ev_args ev))) (fst t),
   upsert_holding (toLowerCase (buyer (ev_args ev))) (tokenId (ev_args ev))
                  (amount (ev_args ev)) now (snd t)).

(** ** Properties of stored states *)

(** The invariant of the checkpoint as the data model words it, and
    the one the driver keeps. *)
Definition checkpoint_behind (r : indexer_state_row) : Prop :=
  last_checkpoint_block r <= last_processed_block r.

Definition checkpoint_close (r : indexer_state_row) : Prop :=
  last_checkpoint_block r <= last_processed_block r + 1.

(** Every checkpoint of the store is at most one block ahead of the
    last processed block. *)
Definition checkpoints_close (w : world) : Prop :=
  Forall checkpoint_close (indexer_state (database w)).

(** The states of the store: a store whose checkpoints all satisfy the
    invariant of the data model (the empty store of the first run, with
    its zero-valued checkpoints, is one), and what turns of the driver
    make of it under any behaviour of the chain and of the network. *)
Inductive reachable (isAddress : string -> bool) (decode : RawLog -> decoded)
    (cfg : config) : world -> Prop :=
| reach_start (w : world) :
    Forall checkpoint_behind (indexer_state (database w)) ->
    reachable isAddress decode cfg w
| reach_cycle (w : world) (addr : string) (c : chain) (now : Z) :
    reachable isAddress decode cfg w ->
    reachable isAddress decode cfg (world_of (cycle isAddress decode cfg addr c now w))
| reach_network (w : world) (f : list bool) :
    reachable isAddress decode cfg w ->
    reachable isAddress decode cfg (set_faults w f).

(** Every event with an applied write has its row in the raw log. *)
Definition applied_recorded (w : world) : Prop :=
  forall tx index, In (tx, index) (applied w) ->
    recorded tx index (blockchain_events (database w)) = true.

(** The raw event of [ev] is in the log and every applied event is
    recorded: what holds between step 1 of a handler and its end. *)
Definition recorded_then (ev : DecodedEvent) (w : world) : Prop :=
  applied_recorded w
  /\ recorded (ev_tx ev) (ev_index ev) (blockchain_events (database w)) = true.

(** Every wallet of [user_portfolio] is in lower case. *)
Definition wallets_lowercase (w : world) : Prop :=
  Forall (fun r => wallet_lowercase r = true) (user_portfolio (database w)).

(** The application tables are what the replay of the raw event log
    gives. *)
Definition replayable (d : db) : Prop :=
  derived d = replay (blockchain_events d).


(** Two events on the same holding (wallet and token). *)
Definition same_entity (e1 e2 : DecodedEvent) : Prop :=
  toLowerCase (buyer (ev_args e1)) = toLowerCase (buyer (ev_args e2))
  /\ tokenId (ev_args e1) = tokenId (ev_args e2).

(** The (transaction hash, log index) pairs of a batch. *)
Definition event_keys (evs : list DecodedEvent) : list (string * Z) :=
  map (fun ev => (ev_tx ev, ev_index ev)) evs.

(** ** A program logic for runs that may throw

    [hoare P m Q E]: from a world in [P], a run of [m] that returns [a]
    leaves a world in [Q a], and a run that throws leaves one in [E].
    Both worlds are persisted ones. *)

Definition hoare {A : Type} (P : world -> Prop) (m : M A)
    (Q : A -> world -> Prop) (E : world -> Prop) : Prop :=
  forall w, P w ->
    match m w with
    | Done a w' => Q a w'
    | Threw _ w' => E w'
    end.

(** An invariant of the persisted world: kept by returns and by throws. *)
Definition keeps {A : Type} (I : world -> Prop) (m : M A) : Prop :=
  hoare I m (fun _ => I) I.



(** ** Sample data: the states of the notes' examples *)

Definition is_hex_digit (c : ascii) : bool :=
  let n := nat_of_ascii c in
  ((Nat.leb 48 n && Nat.leb n 57) || (Nat.leb 65 n && Nat.leb n 70)
   || (Nat.leb 97 n && Nat.leb n 102))%bool.

Fixpoint all_hex (s : string) : bool :=
  match s with
  | EmptyString => true
  | String c rest => (is_hex_digit c && all_hex rest)%bool
  end.

(** The shape of an address: [0x] and forty hexadecimal digits. *)
Definition isHexAddress (s : string) : bool :=
  match s with
  | String "0" (String "x" rest) => (Nat.eqb (String.length rest) 40 && all_hex rest)%bool
  | _ => false
  end.

Definition alice : string := "0xAbCdEf0123456789aBcDeF0123456789abcdef01".
Definition alice_upper : string := "0xABCDEF0123456789ABCDEF0123456789ABCDEF01".
Definition propertyShare : string := "0x3809000000000000000000000000000000000001".

(** A purchase of 10 shares of token 1 in block 12300, and one of 5
    shares by the same buyer in block 12410. *)
Definition purchase1 : DecodedEvent :=
  mkEvent (mkArgs 1 alice 10 1000) propertyShare 12300 "0xaaa1" 5.

Definition purchase2 : DecodedEvent :=
  mkEvent (mkArgs 1 alice_upper 5 500) propertyShare 12410 "0xbbb2" 0.

(** The state of "Example Reorg Handling". *)
Definition notes_state : indexer_state_row :=
  mkState propertyShare 12450 "0x999" 12400 "0xabc123" 0.

Definition notes_chain : chain :=
  mkChain 12453 (fun _ => "0xdef456") (fun n => n * 10) [].

Definition notes_config : config := mkConfig 3 1000 100.

Definition calm (d : db) : world := mkWorld d [] [] [].

(** A small decoder for the examples: a log with the one topic
    [SharesPurchased] and a buyer in its data is a purchase of 10
    shares of token 1; anything else is malformed. *)
Definition sample_decode (l : RawLog) : decoded :=
  match log_topics l with
  | [t] =>
      if String.eqb t "SharesPurchased"
      then Decoded (mkArgs 1 (log_data l) 10 1000)
      else DecodeError "unrecognized event"
  | _ => DecodeError "malformed log"
  end.






(** A chain with one purchase, in block 13000. *)
Definition boundary_chain : chain :=
  mkChain 14003 (fun _ => "0x0") (fun n => n * 10)
          [mkLog propertyShare 13000 "0xb13000" "0xt9" 0 ["SharesPurchased"] alice].

(** The store of the notes' example before any purchase: property 1
    with 100 available shares. *)
Definition shop_db : db := mkDb [notes_state] [] [mkProperty 1 100] [].

(** The network lets the first request through and fails the second. *)
Definition second_request_fails : world := mkWorld shop_db [false; true] [] [].

(** The network of the counterexample to the checkpoint order: the six
    requests up to the reload of the state go through, the request for
    the latest block number fails. *)
Definition rpc_fails_after_rollback : world :=
  mkWorld shop_db [false; false; false; false; false; false; true] [] [].

(** The history of the reorg example: from empty application tables,
    [purchase1] is processed at time 123005 and [purchase2] at time
    124105; the checkpoint is the one of the notes (12450 / 12400). *)
Definition before_reorg : world :=
  world_of (processEvents isHexAddress 124105 [purchase2]
    (world_of (processEvents isHexAddress 123005 [purchase1]
       (calm (mkDb [notes_state] [] [] []))))).

Definition after_reorg : world :=
  world_of (reorgDetector propertyShare notes_chain before_reorg).

(** A second contract under the same indexer, the marketplace, with a
    checkpoint row of its own (12450 / 12400, on a block hash that still
    is the chain's), and two raw events of it: one in block 12350,
    below the checkpoint block of [propertyShare], one in block 12420,
    above it. *)
Definition marketplaceContract : string :=
  "0x9598000000000000000000000000000000000002".

Definition marketplace_state : indexer_state_row :=
  mkState marketplaceContract 12450 "0x999" 12400 "0xdef456" 7.

Definition marketplace_early : blockchain_event :=
  mkRaw "SharesPurchased" marketplaceContract 12350 "0xccc3" 0
        (mkArgs 1 alice 3 300) 123500.

Definition marketplace_late : blockchain_event :=
  mkRaw "SharesPurchased" marketplaceContract 12420 "0xddd4" 2
        (mkArgs 1 alice 4 400) 124200.

Definition two_contracts : world :=
  calm (mkDb [notes_state; marketplace_state]
             [marketplace_early; marketplace_late]
             [mkProperty 1 93]
             [mkPortfolio (toLowerCase alice) 1 7 124200]).

(** ** Keys and totals of the tables *)

(** The pair of the unique constraint of [blockchain_events]. *)
Definition raw_key (r : blockchain_event) : string * Z :=
  (transaction_hash r, log_index r).

(** [UNIQUE (transaction_hash, log_index)] holds in the table. *)
Definition unique_events (w : world) : Prop :=
  NoDup (map raw_key (blockchain_events (database w))).

(** The natural key of a holding. *)
Definition holding_key (r : portfolio_row) : string * Z :=
  (wallet_address r, portfolio_token r).

(** There is at most one row per holding. *)
Definition unique_holdings (l : list portfolio_row) : Prop :=
  NoDup (map holding_key l).

(** The available shares of a token, over its rows of [properties],
    and the shares of the token held in [user_portfolio]. *)
Definition available_of (t : Z) (l : list property_row) : Z :=
  fold_right (fun p acc => if t =? token_id p then available_shares p + acc else acc)
             0 l.

Definition held_of (t : Z) (l : list portfolio_row) : Z :=
  fold_right (fun r acc => if t =? portfolio_token r then shares_owned r + acc else acc)
             0 l.

Definition rows_of_token (t : Z) (l : list property_row) : nat :=
  List.length (filter (fun p => t =? token_id p) l).

(** The rows that a batch may add to the raw event log. *)
Definition raw_of_batch (now : Z) (evs : list DecodedEvent) (r : blockchain_event) : Prop :=
  exists ev, In ev evs /\ r = raw_event "SharesPurchased" ev now.

(** The log of [w] is the log [base] with rows of the batch after it. *)
Definition extends_log (base : list blockchain_event) (now : Z)
    (evs : list DecodedEvent) (w : world) : Prop :=
  exists added,
    blockchain_events (database w) = (base ++ added)%list
    /\ Forall (raw_of_batch now evs) added.

(** The stored checkpoint of a contract: the block and its hash, which
    the reorg detector compares with the chain. *)
Definition checkpoint_pair (addr : string) (d : db) : Z * string :=
  (last_checkpoint_block (state_of addr d), last_checkpoint_hash (state_of addr d)).

(** The contract's checkpoint is [pair]. *)
Definition stored (addr : string) (pair : Z * string) (w : world) : Prop :=
  checkpoint_pair addr (database w) = pair.

(** The same of a world of which [st] is the row that was loaded. *)
Definition loaded (addr : string) (pair : Z * string) (st : indexer_state_row)
    (w : world) : Prop :=
  stored addr pair w /\ st = state_of addr (database w).

(** The database after the three statements of a rollback. *)
Definition rolled_back (st : indexer_state_row) (ts : Z) (d : db) : db :=
  mkDb (upsert_state (set_last_processed st (last_checkpoint_block st - 1))
                     (indexer_state d))
       (filter (fun r => block_number r <? last_checkpoint_block st)
               (blockchain_events d))
       (properties d)
       (filter (fun r => last_updated r <? ts) (user_portfolio d)).

(** ** The two loops of "Batch Processing" *)

(** "BAD: Process 1 block per query":
<<
    for (let i = 12000; i <= 13000; i++) {
      const logs = await getLogs({ fromBlock: i, toBlock: i })
      await processLogs(logs)
    }
>>
    [turns] counts the turns of the loop that are left. *)
Fixpoint blockTurns (isAddress : string -> bool) (decode : RawLog -> decoded)
    (turns : nat) (c : chain) (addr : string) (i now : Z) : M unit :=
  match turns with
  | O => ret tt
  | S n =>
      logs <- getLogs c addr i i ;;
      processLogs isAddress decode now logs ;;
      blockTurns isAddress decode n c addr (i + 1) now
  end.

Definition blockLoop (isAddress : string -> bool) (decode : RawLog -> decoded)
    (c : chain) (addr : string) (first last now : Z) : M unit :=
  blockTurns isAddress decode (Z.to_nat (last - first + 1)) c addr first now.

(** The block ranges that a loop asks the node for: [turns] queries,
    the first one from block [i], each [step] blocks after the one
    before and [width] blocks wide. *)
Fixpoint queryRanges (turns : nat) (i step width : Z) : list (Z * Z) :=
  match turns with
  | O => []
  | S n => (i, i + width) :: queryRanges n (i + step) step width
  end.

Definition blockRanges (first last : Z) : list (Z * Z) :=
  queryRanges (Z.to_nat (last - first + 1)) first 1 0.

Definition batchRanges (first last : Z) : list (Z * Z) :=
  queryRanges (Z.to_nat ((last - first) / 1000 + 1)) first 1000 1000.

(** The logs of the queries, in the order in which they are answered. *)
Definition fetched (c : chain) (addr : string) (ranges : list (Z * Z)) : list RawLog :=
  flat_map (fun r => filter (in_range addr (fst r) (snd r)) (chain_logs c)) ranges.

(** The number of queries whose range holds block [b]. *)
Definition queries_of (b : Z) (ranges : list (Z * Z)) : nat :=
  List.length (filter (fun r => (fst r <=? b) && (b <=? snd r))%bool ranges).

(** The logs of contract [addr] in block [b], in their order. *)
Definition logs_at (addr : string) (b : Z) (l : list RawLog) : list RawLog :=
  filter (fun x => (String.eqb addr (log_address x) && (log_block x =? b))%bool) l.

(** ** The scripts on the listings of the old marketplace

    [check-old-listings] and [cancel-old-listings] read the listings
    of the Marketplace contract and cancel those of the signer.  The
    contract is not part of these files: its state and its calls are
    parameters. *)

(** What [marketplace.listings(i)] returns. *)
Record listing : Type := mkListing {
  seller : string;
  listing_token : Z;
  listing_amount : Z;
  pricePerShare : Z;
  active : bool
}.

(** [a.toLowerCase() === b.toLowerCase()] *)
Definition sameAddress (a b : string) : bool :=
  String.eqb (toLowerCase a) (toLowerCase b).

(** What happens to one listing id in the cancelling loop: the read of
    the listing throws (or the id is no number), "is already
    inactive", "belongs to ... not ...", "cancelled successfully", or
    [cancelListing] or the wait for its receipt throws. *)
Inductive attempt : Type :=
| ReadFailed
| AlreadyInactive
| NotYours
| Cancelled
| CancelFailed.

(** The summary at the end of [cancel-old-listings]: "Total listings
    found" and "Listings cancelled". *)
Record summary : Type := mkSummary {
  total_found : nat;
  listings_cancelled : nat
}.

Section Marketplace.

(** The state of the contract. *)
Variable market : Type.

(** How [cancelListing(i)] followed by [tx.wait()] ends, and the state
    of the contract after it: the receipt came, or one of the two
    threw.  After a throw the state is the one before the call when the
    transaction was refused or reverted, and another one when it was
    mined and only the wait for the receipt failed. *)
Inductive sent : Type :=
| Confirmed (after : market)
| Thrown (after : market).

Definition state_after (r : sent) : market :=
  match r with
  | Confirmed m => m
  | Thrown m => m
  end.

(** [listingCount()], [listings(i)] ([None] when the call throws) and
    [cancelListing(i)] sent by the signer and waited for. *)
Variable listingCount : market -> Z.
Variable listings : market -> Z -> option listing.
Variable cancelListing : market -> string -> Z -> sent.

(** "Find all active listings owned by deployer":
<<
    for (let i = 1; i <= totalListings; i++) {
      try {
        const listing = await marketplace.listings(i);
        if (listing.active &&
            listing.seller.toLowerCase() === signer.address.toLowerCase()) {
          myActiveListings.push(i);
        }
      } catch (error) { continue; }
    }
>> *)
Fixpoint findFrom (m : market) (signer : string) (turns : nat) (i : Z) : list Z :=
  match turns with
  | O => []
  | S n =>
      match listings m i with
      | Some l =>
          if (active l && sameAddress (seller l) signer)%bool
          then i :: findFrom m signer n (i + 1)
          else findFrom m signer n (i + 1)
      | None => findFrom m signer n (i + 1)
      end
  end.

Definition findMyActiveListings (m : market) (signer : string) : list Z :=
  findFrom m signer (Z.to_nat (listingCount m)) 1.

(** "Get listing IDs from environment variable or use found listings".
    [env] is [LISTING_IDS] split at the commas and parsed, [None] when
    the variable is unset or empty; an id that parses to no number is
    [None].  The result is [None] when the script exits for want of
    listings. *)
Definition selectListings (env : option (list (option Z))) (found : list Z)
    : option (list (option Z)) :=
  match env with
  | Some ids => Some ids
  | None =>
      match found with
      | [] => None
      | _ :: _ => Some (map Some found)
      end
  end.

(** One turn of "Check each listing before cancelling":
<<
    for (const listingId of listingIds) {
      try {
        const listing = await marketplace.listings(listingId);
        if (!listing.active) { ...; continue; }
        if (listing.seller.toLowerCase() !== signer.address.toLowerCase()) {
          ...; continue;
        }
        const tx = await marketplaceWithSigner.cancelListing(listingId);
        const receipt = await tx.wait();
      } catch (error: any) { console.error(...) }
    }
>> *)
Definition cancelOne (signer : string) (m : market) (id : option Z)
    : attempt * market :=
  match id with
  | None => (ReadFailed, m)
  | Some i =>
      match listings m i with
      | None => (ReadFailed, m)
      | Some l =>
          if negb (active l) then (AlreadyInactive, m)
          else if negb (sameAddress (seller l) signer) then (NotYours, m)
          else
            match cancelListing m signer i with
            | Confirmed m' => (Cancelled, m')
            | Thrown m' => (CancelFailed, m')
            end
      end
  end.

Fixpoint cancelAll (signer : string) (m : market) (ids : list (option Z))
    : list attempt * market :=
  match ids with
  | [] => ([], m)
  | id :: rest =>
      let (a, m1) := cancelOne signer m id in
      let (others, m2) := cancelAll signer m1 rest in
      (a :: others, m2)
  end.

(** How a run of the script ends: [main] rejects ("Script failed",
    exit code 1); the script exits for want of listings, before the
    cancelling loop (exit code 0); or it goes through the loop and
    prints its summary (exit code 0), with the attempts, the state of
    the contract after them and the summary. *)
Inductive run : Type :=
| ScriptFailed
| NoListings
| Finished (attempts : list attempt) (after : market) (s : summary).

(** The script.  [connected] is [false] when one of the calls before
    the loops throws: [getSigners] (or the wallet of
    [SELLER_PRIVATE_KEY]), [getBalance], [getContractFactory] or
    [listingCount()].  None of them is inside a [try], so [main]
    rejects and [main().catch] exits with code 1. *)
Definition cancelOldListings (signer : string) (env : option (list (option Z)))
    (connected : bool) (m : market) : run :=
  if connected then
    let found := findMyActiveListings m signer in
    match selectListings env found with
    | None => NoListings
    | Some ids =>
        let (attempts, m') := cancelAll signer m ids in
        Finished attempts m' (mkSummary (List.length found) (List.length ids))
    end
  else ScriptFailed.

(** One call of [cancelListing] that the script may make: on a listing
    that the contract shows as active and as the signer's; the state
    after it is the one the call leaves, whether it was confirmed or
    threw. *)
Inductive own_cancel (signer : string) : market -> market -> Prop :=
| own_cancel_step (m : market) (i : Z) (l : listing) :
    listings m i = Some l ->
    active l = true ->
    sameAddress (seller l) signer = true ->
    own_cancel signer m (state_after (cancelListing m signer i)).

(** A sequence of such calls, counted. *)
Inductive own_cancels (signer : string) : nat -> market -> market -> Prop :=
| own_cancels_none (m : market) : own_cancels signer 0 m m
| own_cancels_more (n : nat) (m m1 m2 : market) :
    own_cancel signer m m1 ->
    own_cancels signer n m1 m2 ->
    own_cancels signer (S n) m m2.

Definition is_cancelled (a : attempt) : bool :=
  match a with
  | Cancelled => true
  | _ => false
  end.

(** The attempts in which [cancelListing] was called. *)
Definition is_call (a : attempt) : bool :=
  match a with
  | Cancelled | CancelFailed => true
  | _ => false
  end.

End Marketplace.

(** A sample state of the contract for the scripts: the listings by
    id from 1; the read of another id throws; a cancellation by another
    account than the seller, or of an inactive listing, reverts. *)
Definition sample_market : Type := list listing.

Definition sample_count (m : sample_market) : Z := Z.of_nat (List.length m).

Definition sample_listings (m : sample_market) (i : Z) : option listing :=
  if 1 <=? i then nth_error m (Z.to_nat (i - 1)) else None.

Fixpoint deactivate (m : sample_market) (k : nat) : sample_market :=
  match m, k with
  | [], _ => []
  | l :: rest, O =>
      mkListing (seller l) (listing_token l) (listing_amount l)
                (pricePerShare l) false :: rest
  | l :: rest, S k' => l :: deactivate rest k'
  end.

Definition sample_cancel (m : sample_market) (sender : string) (i : Z)
    : sent sample_market :=
  match sample_listings m i with
  | Some l =>
      if (active l && String.eqb (seller l) sender)%bool
      then Confirmed sample_market (deactivate m (Z.to_nat (i - 1)))
      else Thrown sample_market m
  | None => Thrown sample_market m
  end.

Definition bob : string := "0xb0b0000000000000000000000000000000000002".

(** Three listings: an active one of alice, an active one of bob, and
    one of alice, her address in capitals, that was cancelled. *)
Definition three_listings : sample_market :=
  [ mkListing alice 1 10 1000 true;
    mkListing bob 1 5 1200 true;
    mkListing alice_upper 2 7 900 false ].

(** * Proofs *)

(** ** Running requests *)

Lemma request_calm {A : Type} (stmt : db -> error + (A * db)) (w : world) :
  faults w = [] ->
  request stmt w =
  match stmt (database w) with
  | inr (a, d) => Done a (set_database w d)
  | inl e => Threw e w
  end.
Proof.
  intros H. unfold request. rewrite H. reflexivity.
Qed.

Lemma request_passes {A : Type} (stmt : db -> error + (A * db)) (w : world)
    (rest : list bool) :
  faults w = false :: rest ->
  request stmt w =
  match stmt (database w) with
  | inr (a, d) => Done a (mkWorld d rest (applied w) (error_log w))
  | inl e => Threw e (set_faults w rest)
  end.
Proof.
  intros H. unfold request. rewrite H. simpl.
  destruct (stmt (database w)) as [e | [a d]]; reflexivity.
Qed.

Lemma request_fails {A : Type} (stmt : db -> error + (A * db)) (w : world)
    (rest : list bool) :
  faults w = true :: rest ->
  request stmt w = Threw NetworkError (set_faults w rest).
Proof.
  intros H. unfold request. rewrite H. reflexivity.
Qed.

Lemma bind_done {A B : Type} (m : M A) (k : A -> M B) (w w' : world) (a : A) :
  m w = Done a w' -> bind m k w = k a w'.
Proof.
  intros H. unfold bind. rewrite H. reflexivity.
Qed.

Lemma bind_threw {A B : Type} (m : M A) (k : A -> M B) (w w' : world) (e : error) :
  m w = Threw e w' -> bind m k w = Threw e w'.
Proof.
  intros H. unfold bind. rewrite H. reflexivity.
Qed.

(** ** Rules of the program logic *)

Lemma hoare_ret {A : Type} (P : world -> Prop) (a : A)
    (Q : A -> world -> Prop) (E : world -> Prop) :
  (forall w, P w -> Q a w) -> hoare P (ret a) Q E.
Proof.
  intros H w Hw. simpl. apply H. exact Hw.
Qed.

Lemma hoare_throw {A : Type} (P : world -> Prop) (e : error)
    (Q : A -> world -> Prop) (E : world -> Prop) :
  (forall w, P w -> E w) -> hoare P (throw e) Q E.
Proof.
  intros H w Hw. simpl. apply H. exact Hw.
Qed.

Lemma hoare_bind {A B : Type} (P : world -> Prop) (m : M A) (k : A -> M B)
    (Q : A -> world -> Prop) (R : B -> world -> Prop) (E : world -> Prop) :
  hoare P m Q E -> (forall a, hoare (Q a) (k a) R E) -> hoare P (bind m k) R E.
Proof.
  intros Hm Hk w Hw. unfold bind. specialize (Hm w Hw).
  destruct (m w) as [a w' | e w'].
  - apply Hk. exact Hm.
  - exact Hm.
Qed.

Lemma hoare_weaken {A : Type} (P P' : world -> Prop) (m : M A)
    (Q Q' : A -> world -> Prop) (E E' : world -> Prop) :
  hoare P' m Q' E' ->
  (forall w, P w -> P' w) ->
  (forall a w, Q' a w -> Q a w) ->
  (forall w, E' w -> E w) ->
  hoare P m Q E.
Proof.
  intros H HP HQ HE w Hw. specialize (H w (HP w Hw)).
  destruct (m w); auto.
Qed.

Lemma hoare_pure {A : Type} (phi : Prop) (P : world -> Prop) (m : M A)
    (Q : A -> world -> Prop) (E : world -> Prop) :
  (phi -> hoare P m Q E) -> hoare (fun w => P w /\ phi) m Q E.
Proof.
  intros H w [Hw Hphi]. apply H; assumption.
Qed.

Lemma hoare_request {A : Type} (P : world -> Prop) (stmt : db -> error + (A * db))
    (Q : A -> world -> Prop) (E : world -> Prop) :
  (forall w f, P w -> P (set_faults w f)) ->
  (forall w, P w -> E w) ->
  (forall w, P w ->
     match stmt (database w) with
     | inr (a, d) => Q a (set_database w d)
     | inl _ => E w
     end) ->
  hoare P (request stmt) Q E.
Proof.
  intros Hf HE Hs w Hw. unfold request.
  destruct (faults w) as [| [|] rest].
  - specialize (Hs w Hw). destruct (stmt (database w)) as [e | [a d]]; exact Hs.
  - apply HE. apply Hf. exact Hw.
  - specialize (Hs (set_faults w rest) (Hf w rest Hw)).
    destruct (stmt (database (set_faults w rest))) as [e | [a d]]; exact Hs.
Qed.

Lemma keeps_bind {A B : Type} (I : world -> Prop) (m : M A) (k : A -> M B) :
  keeps I m -> (forall a, keeps I (k a)) -> keeps I (bind m k).
Proof.
  intros Hm Hk. unfold keeps in *. eapply hoare_bind; [exact Hm | exact Hk].
Qed.

Lemma keeps_world_of {A : Type} (I : world -> Prop) (m : M A) (w : world) :
  keeps I m -> I w -> I (world_of (m w)).
Proof.
  intros H Hw. specialize (H w Hw). destruct (m w); exact H.
Qed.

Lemma keeps_request {A : Type} (I : world -> Prop) (stmt : db -> error + (A * db)) :
  (forall w f, I w -> I (set_faults w f)) ->
  (forall w a d, I w -> stmt (database w) = inr (a, d) -> I (set_database w d)) ->
  keeps I (request stmt).
Proof.
  intros Hf Hs. apply hoare_request.
  - exact Hf.
  - auto.
  - intros w Hw. destruct (stmt (database w)) as [e | [a d]] eqn:E.
    + exact Hw.
    + eapply Hs; eassumption.
Qed.

(** ** The raw event log *)

Lemma recorded_app (tx : string) (index : Z) (l1 l2 : list blockchain_event) :
  recorded tx index (l1 ++ l2) = (recorded tx index l1 || recorded tx index l2)%bool.
Proof.
  unfold recorded. apply existsb_app.
Qed.

Lemma recorded_insert_mono (tx : string) (index : Z) (r : blockchain_event) (d : db) :
  recorded tx index (blockchain_events d) = true ->
  recorded tx index (blockchain_events (insert_event r d)) = true.
Proof.
  intros H. unfold insert_event.
  destruct (recorded (transaction_hash r) (log_index r) (blockchain_events d)).
  - exact H.
  - simpl. rewrite recorded_app. rewrite H. reflexivity.
Qed.

Lemma recorded_insert_self (r : blockchain_event) (d : db) :
  recorded (transaction_hash r) (log_index r)
           (blockchain_events (insert_event r d)) = true.
Proof.
  unfold insert_event.
  destruct (recorded (transaction_hash r) (log_index r) (blockchain_events d)) eqn:E.
  - exact E.
  - simpl. rewrite recorded_app. simpl. unfold same_event.
    rewrite String.eqb_refl, Z.eqb_refl. simpl. apply orb_true_r.
Qed.

Lemma recorded_insert_other (tx : string) (index : Z) (r : blockchain_event) (d : db) :
  same_event tx index r = false ->
  recorded tx index (blockchain_events (insert_event r d))
  = recorded tx index (blockchain_events d).
Proof.
  intros H. unfold insert_event.
  destruct (recorded (transaction_hash r) (log_index r) (blockchain_events d)).
  - reflexivity.
  - simpl. rewrite recorded_app. simpl. rewrite H.
    rewrite !orb_false_r. reflexivity.
Qed.

Lemma insert_recorded (r : blockchain_event) (d : db) :
  recorded (transaction_hash r) (log_index r) (blockchain_events d) = true ->
  insert_event r d = d.
Proof.
  intros H. unfold insert_event. rewrite H. reflexivity.
Qed.

(** ** Lower case *)

Lemma lower_ascii_idempotent (c : ascii) :
  lower_ascii (lower_ascii c) = lower_ascii c.
Proof.
  destruct c as [[] [] [] [] [] [] [] []]; reflexivity.
Qed.

Lemma toLowerCase_idempotent (s : string) :
  toLowerCase (toLowerCase s) = toLowerCase s.
Proof.
  induction s as [| c rest IH]; simpl.
  - reflexivity.
  - rewrite lower_ascii_idempotent, IH. reflexivity.
Qed.

Lemma lowered_wallet_passes (s : string) (token amt now : Z) :
  wallet_lowercase (mkPortfolio (toLowerCase s) token amt now) = true.
Proof.
  unfold wallet_lowercase. simpl. rewrite toLowerCase_idempotent.
  apply String.eqb_refl.
Qed.

(** ** The checkpoint store *)

Lemma state_of_address (addr : string) (d : db) :
  contract_address (state_of addr d) = addr.
Proof.
  unfold state_of.
  destruct (find (for_contract addr) (indexer_state d)) as [r |] eqn:E.
  - apply find_some in E. destruct E as [_ E].
    unfold for_contract in E. apply String.eqb_eq in E. symmetry. exact E.
  - reflexivity.
Qed.

Lemma find_upsert_same (r : indexer_state_row) (l : list indexer_state_row) :
  find (for_contract (contract_address r)) (upsert_state r l) = Some r.
Proof.
  induction l as [| x rest IH]; simpl.
  - unfold for_contract. rewrite String.eqb_refl. reflexivity.
  - destruct (for_contract (contract_address r) x) eqn:E; simpl.
    + unfold for_contract. rewrite String.eqb_refl. reflexivity.
    + rewrite E. exact IH.
Qed.

Lemma find_upsert_other (addr : string) (r : indexer_state_row)
    (l : list indexer_state_row) :
  addr <> contract_address r ->
  find (for_contract addr) (upsert_state r l) = find (for_contract addr) l.
Proof.
  intros Hne. induction l as [| x rest IH]; simpl.
  - unfold for_contract. apply String.eqb_neq in Hne. rewrite Hne. reflexivity.
  - destruct (for_contract (contract_address r) x) eqn:E; simpl.
    + unfold for_contract in *. apply String.eqb_eq in E.
      assert (H1 : String.eqb addr (contract_address r) = false)
        by (apply String.eqb_neq; exact Hne).
      rewrite H1. rewrite <- E. rewrite H1. reflexivity.
    + rewrite IH. reflexivity.
Qed.

Lemma state_of_upsert_same (r : indexer_state_row) (d : db) :
  state_of (contract_address r)
           (set_indexer_state d (upsert_state r (indexer_state d))) = r.
Proof.
  unfold state_of. simpl. rewrite find_upsert_same. reflexivity.
Qed.

Lemma state_of_upsert_other (addr : string) (r : indexer_state_row) (d : db) :
  addr <> contract_address r ->
  state_of addr (set_indexer_state d (upsert_state r (indexer_state d)))
  = state_of addr d.
Proof.
  intros Hne. unfold state_of. simpl. rewrite find_upsert_other by exact Hne.
  reflexivity.
Qed.

Lemma saveState_result (r : indexer_state_row) (w w' : world) :
  saveState r w = Done tt w' ->
  state_of (contract_address r) (database w') = r.
Proof.
  unfold saveState, request. intros H.
  destruct (faults w) as [| [|] rest]; simpl in H; inversion H; subst; simpl;
    apply state_of_upsert_same.
Qed.

Lemma upsert_Forall (P : indexer_state_row -> Prop) (r : indexer_state_row)
    (l : list indexer_state_row) :
  P r -> Forall P l -> Forall P (upsert_state r l).
Proof.
  intros Hr Hl. induction Hl as [| x rest Hx Hrest IH]; simpl.
  - constructor; [exact Hr | constructor].
  - destruct (for_contract (contract_address r) x).
    + constructor; assumption.
    + constructor; assumption.
Qed.

Lemma state_of_Forall (P : indexer_state_row -> Prop) (addr : string) (d : db) :
  P (zero_state addr) -> Forall P (indexer_state d) -> P (state_of addr d).
Proof.
  intros Hz Hd. unfold state_of.
  destruct (find (for_contract addr) (indexer_state d)) as [r |] eqn:E.
  - apply find_some in E. destruct E as [Hin _].
    rewrite Forall_forall in Hd. apply Hd. exact Hin.
  - exact Hz.
Qed.

Lemma zero_state_behind (addr : string) : checkpoint_behind (zero_state addr).
Proof.
  unfold checkpoint_behind. simpl. lia.
Qed.

Lemma behind_close (r : indexer_state_row) : checkpoint_behind r -> checkpoint_close r.
Proof.
  unfold checkpoint_behind, checkpoint_close. lia.
Qed.

(** ** Increments on a holding *)

Lemma same_holding_increment (wallet wallet' : string) (token token' amt now : Z)
    (r : portfolio_row) :
  same_holding wallet token (increment_shares wallet' token' amt now r)
  = same_holding wallet token r.
Proof.
  unfold increment_shares. destruct (same_holding wallet' token' r); reflexivity.
Qed.

Lemma find_increment (wallet : string) (token amt now : Z) (l : list portfolio_row) :
  find (same_holding wallet token) (map (increment_shares wallet token amt now) l)
  = option_map (increment_shares wallet token amt now)
               (find (same_holding wallet token) l).
Proof.
  induction l as [| r rest IH]; simpl.
  - reflexivity.
  - rewrite same_holding_increment.
    destruct (same_holding wallet token r); [reflexivity | exact IH].
Qed.

Lemma increment_absent (wallet : string) (token amt now : Z) (l : list portfolio_row) :
  find (same_holding wallet token) l = None ->
  map (increment_shares wallet token amt now) l = l.
Proof.
  induction l as [| r rest IH]; simpl; intros H.
  - reflexivity.
  - unfold increment_shares at 1.
    destruct (same_holding wallet token r); [discriminate |].
    rewrite IH by exact H. reflexivity.
Qed.

Lemma find_created (wallet : string) (token amt now : Z) (l : list portfolio_row) :
  find (same_holding wallet token) l = None ->
  find (same_holding wallet token) (l ++ [mkPortfolio wallet token amt now])
  = Some (mkPortfolio wallet token amt now).
Proof.
  induction l as [| r rest IH]; simpl; intros H.
  - unfold same_holding. simpl. rewrite String.eqb_refl, Z.eqb_refl. reflexivity.
  - destruct (same_holding wallet token r); [discriminate | apply IH; exact H].
Qed.



Lemma decrement_twice (token a1 a2 : Z) (p : property_row) :
  decrement_available token a2 (decrement_available token a1 p)
  = decrement_available token (a1 + a2) p.
Proof.
  unfold decrement_available at 2 3.
  destruct (token =? token_id p) eqn:E.
  - unfold decrement_available. simpl. rewrite E. f_equal. lia.
  - unfold decrement_available. rewrite E. reflexivity.
Qed.




(** ** Runs of the handler *)

Section HandlerRuns.

Variable isAddress : string -> bool.
Variable decode : RawLog -> decoded.

Lemma handler_as_steps (ev : DecodedEvent) (now : Z) :
  handleSharesPurchased isAddress ev now
  = (validateArgs isAddress (ev_args ev) ;;
     storeEvent "SharesPurchased" ev now ;;
     applyDerived ev now).
Proof.
  reflexivity.
Qed.

Lemma validateArgs_keeps (I : world -> Prop) (a : EventArgs) :
  keeps I (validateArgs isAddress a).
Proof.
  unfold validateArgs.
  destruct (amount a <=? 0); [apply hoare_throw; auto |].
  destruct (negb (isAddress (buyer a))); [apply hoare_throw; auto |].
  apply hoare_ret; auto.
Qed.

Lemma validateArgs_valid (a : EventArgs) (w : world) :
  valid_args isAddress a = true ->
  validateArgs isAddress a w = Done tt w.
Proof.
  unfold valid_args, validateArgs. intros H.
  apply andb_true_iff in H. destruct H as [H1 H2].
  apply negb_true_iff in H1. rewrite H1, H2. reflexivity.
Qed.

Lemma applyDerived_calm (ev : DecodedEvent) (now : Z) (w : world) :
  faults w = [] ->
  applyDerived ev now w
  = Done tt
      (mkWorld
         (mkDb (indexer_state (database w)) (blockchain_events (database w))
               (map (decrement_available (tokenId (ev_args ev)) (amount (ev_args ev)))
                    (properties (database w)))
               (upsert_holding (toLowerCase (buyer (ev_args ev)))
                               (tokenId (ev_args ev)) (amount (ev_args ev)) now
                               (user_portfolio (database w))))
         []
         (applied w ++ [(ev_tx ev, ev_index ev); (ev_tx ev, ev_index ev)])
         (error_log w)).
Proof.
  intros Hcalm. destruct w as [d f ap el]. simpl in Hcalm. subst f.
  unfold applyDerived, updateProperties, getPortfolio, updatePortfolio,
    createPortfolio, mark_applied, upsert_holding, bind, request. simpl.
  destruct (find _ (user_portfolio d)) as [r |]; simpl.
  - rewrite <- app_assoc. reflexivity.
  - rewrite lowered_wallet_passes. simpl. rewrite <- app_assoc. reflexivity.
Qed.

Lemma handler_calm (ev : DecodedEvent) (now : Z) (w : world) :
  faults w = [] ->
  valid_args isAddress (ev_args ev) = true ->
  handleSharesPurchased isAddress ev now w
  = Done tt
      (mkWorld (handled ev now (database w)) []
               (applied w ++ [(ev_tx ev, ev_index ev); (ev_tx ev, ev_index ev)])
               (error_log w)).
Proof.
  intros Hcalm Hvalid. rewrite handler_as_steps.
  rewrite (bind_done _ _ w w tt) by (apply validateArgs_valid; exact Hvalid).
  unfold storeEvent.
  rewrite (bind_done _ _ w
             (set_database w (insert_event (raw_event "SharesPurchased" ev now)
                                           (database w))) tt)
    by (rewrite request_calm by exact Hcalm; reflexivity).
  rewrite applyDerived_calm by exact Hcalm.
  unfold handled, insert_event. simpl.
  destruct (recorded (ev_tx ev) (ev_index ev) (blockchain_events (database w)));
    reflexivity.
Qed.

Lemma processEvents_keeps (I : world -> Prop) :
  (forall ev now, keeps I (handleSharesPurchased isAddress ev now)) ->
  forall now evs, keeps I (processEvents isAddress now evs).
Proof.
  intros H now evs. induction evs as [| ev rest IH]; simpl.
  - apply hoare_ret. auto.
  - apply keeps_bind; [apply H | intros _; exact IH].
Qed.

Lemma log_error_keeps (I : world -> Prop) (l : RawLog) :
  (forall w el, I w -> I (mkWorld (database w) (faults w) (applied w) el)) ->
  keeps I (log_error l).
Proof.
  intros H w Hw. simpl. apply H. exact Hw.
Qed.

Lemma processLogs_keeps (I : world -> Prop) :
  (forall w el, I w -> I (mkWorld (database w) (faults w) (applied w) el)) ->
  (forall ev now, keeps I (handleSharesPurchased isAddress ev now)) ->
  forall now logs, keeps I (processLogs isAddress decode now logs).
Proof.
  intros Hel H now logs. induction logs as [| l rest IH]; simpl.
  - apply hoare_ret. auto.
  - apply keeps_bind; [| intros _; exact IH].
    destruct (decode l); [apply H | apply log_error_keeps; exact Hel].
Qed.

(** *** What a handler leaves alone *)

(** A property of the world that no write of the handler disturbs is
    kept by the handler, however it ends. *)
Lemma handler_keeps (I : world -> Prop) (ev : DecodedEvent) (now : Z) :
  (forall w f, I w -> I (set_faults w f)) ->
  (forall w, I w ->
     I (set_database w (insert_event (raw_event "SharesPurchased" ev now) (database w)))) ->
  (forall w l, I w -> I (set_database w (set_properties (database w) l))) ->
  (forall w l, I w -> I (set_database w (set_user_portfolio (database w) l))) ->
  (forall w, I w -> I (world_of (mark_applied ev w))) ->
  keeps I (handleSharesPurchased isAddress ev now).
Proof.
  intros Hf Hins Hprop Hpf Hmark.
  assert (Kmark : keeps I (mark_applied ev)).
  { intros w Hw. apply (Hmark w Hw). }
  rewrite handler_as_steps.
  apply keeps_bind; [apply validateArgs_keeps |]. intros _.
  apply keeps_bind.
  { apply keeps_request; [exact Hf |]. intros w a d Hw H. inversion H. apply Hins. exact Hw. }
  intros _. unfold applyDerived. apply keeps_bind.
  { apply keeps_request; [exact Hf |]. intros w a d Hw H. inversion H. apply Hprop. exact Hw. }
  intros _. apply keeps_bind; [exact Kmark |].
  intros _. apply keeps_bind.
  { apply keeps_request; [exact Hf |]. intros w a d Hw H. inversion H. subst.
    destruct w; exact Hw. }
  intros existing. apply keeps_bind; [| intros _; exact Kmark].
  destruct existing as [r |].
  - apply keeps_request; [exact Hf |]. intros w a d Hw H. inversion H. apply Hpf. exact Hw.
  - apply keeps_request; [exact Hf |]. intros w a d Hw H. cbv zeta in H.
    destruct (wallet_lowercase _); inversion H. apply Hpf. exact Hw.
Qed.


Lemma handler_keeps_indexer_state (P : list indexer_state_row -> Prop)
    (ev : DecodedEvent) (now : Z) :
  keeps (fun w => P (indexer_state (database w)))
        (handleSharesPurchased isAddress ev now).
Proof.
  apply handler_keeps; intros; simpl; try assumption.
  unfold insert_event. destruct (recorded _ _ _); assumption.
Qed.




End HandlerRuns.

(** ** Replay of the raw event log *)

Lemma replayEvents_calm (l : list blockchain_event) :
  forall w : world, faults w = [] ->
    exists w' : world,
      replayEvents l w = Done tt w'
      /\ faults w' = []
      /\ derived (database w')
         = fold_left (fun acc r => derived_step (event_of_raw r) (processed_at r) acc)
                     l (derived (database w)).
Proof.
  induction l as [| r rest IH]; intros w Hcalm.
  - exists w. repeat split. exact Hcalm.
  - simpl. unfold bind. rewrite applyDerived_calm by exact Hcalm.
    match goal with
    | |- context [replayEvents rest ?w1] =>
        destruct (IH w1 eq_refl) as [w' [R [F D]]]
    end.
    exists w'. split; [exact R |]. split; [exact F |]. rewrite D. reflexivity.
Qed.

Lemma replay_fold (l : list blockchain_event) :
  replay l
  = fold_left (fun acc r => derived_step (event_of_raw r) (processed_at r) acc)
              l ([], []).
Proof.
  unfold replay.
  destruct (replayEvents_calm l (mkWorld empty_db [] [] []) eq_refl)
    as [w' [R [_ D]]].
  rewrite R. simpl. exact D.
Qed.

Lemma replay_snoc (l : list blockchain_event) (r : blockchain_event) :
  replay (l ++ [r]) = derived_step (event_of_raw r) (processed_at r) (replay l).
Proof.
  rewrite !replay_fold. rewrite fold_left_app. reflexivity.
Qed.

Lemma event_of_raw_event (name : string) (ev : DecodedEvent) (now : Z) :
  event_of_raw (raw_event name ev now) = ev.
Proof.
  destruct ev. reflexivity.
Qed.

(** A first delivery keeps the application tables replayable. *)
Lemma handled_fresh_replayable (ev : DecodedEvent) (now : Z) (d : db) :
  recorded (ev_tx ev) (ev_index ev) (blockchain_events d) = false ->
  replayable d -> replayable (handled ev now d).
Proof.
  unfold replayable. intros Hfresh Hd.
  unfold handled, insert_event. simpl. rewrite Hfresh. simpl.
  rewrite replay_snoc. rewrite event_of_raw_event. simpl.
  rewrite <- Hd. reflexivity.
Qed.

Section ReplayOfHistories.

Variable isAddress : string -> bool.

(** Replay equivalence holds as long as no event is delivered twice
    and nothing is rolled back: a batch of valid events with distinct
    pairs, none of them in the log yet, processed without a failing
    request, keeps the application tables replayable. *)
Lemma fresh_batch_replayable (now : Z) (evs : list DecodedEvent) :
  forall w : world,
    faults w = [] ->
    Forall (fun ev => valid_args isAddress (ev_args ev) = true) evs ->
    NoDup (event_keys evs) ->
    (forall ev, In ev evs ->
       recorded (ev_tx ev) (ev_index ev) (blockchain_events (database w)) = false) ->
    replayable (database w) ->
    exists w' : world,
      processEvents isAddress now evs w = Done tt w'
      /\ faults w' = []
      /\ replayable (database w').
Proof.
  induction evs as [| ev rest IH]; intros w Hcalm Hvalid Hnd Hfresh Hrep.
  - exists w. repeat split; assumption.
  - inversion Hvalid as [| x xs Hv Hvs]; subst.
    simpl in Hnd. inversion Hnd as [| k ks Hnotin Hnd']; subst.
    simpl. unfold bind. rewrite handler_calm by assumption.
    match goal with
    | |- context [processEvents isAddress now rest ?w1] =>
        destruct (IH w1) as [w' [R [F P]]]
    end.
    + reflexivity.
    + exact Hvs.
    + exact Hnd'.
    + intros e Hin. simpl.
      rewrite (recorded_insert_other (ev_tx e) (ev_index e)
                 (raw_event "SharesPurchased" ev now) (database w)).
      * apply Hfresh. right. exact Hin.
      * unfold same_event. simpl.
        destruct (String.eqb (ev_tx e) (ev_tx ev)) eqn:E1; [| reflexivity].
        destruct (ev_index e =? ev_index ev) eqn:E2; [| reflexivity].
        apply String.eqb_eq in E1. apply Z.eqb_eq in E2.
        exfalso. apply Hnotin. unfold event_keys. apply in_map_iff.
        exists e. split; [rewrite E1, E2; reflexivity | exact Hin].
    + simpl. apply handled_fresh_replayable; [| exact Hrep].
      apply Hfresh. left. reflexivity.
    + exists w'. repeat split; assumption.
Qed.

End ReplayOfHistories.

(** * The claims *)

(** ** C1: the reorg detector *)

Lemma filter_below_spec (n : Z) (l : list blockchain_event) (r : blockchain_event) :
  In r (filter (fun x => block_number x <? n) l) <-> In r l /\ block_number r < n.
Proof.
  rewrite filter_In. rewrite Z.ltb_lt. reflexivity.
Qed.

(** C1. When the reorg detector runs before a batch and no request
    fails: if the hash of the chain at [last_checkpoint_block] is the
    stored [last_checkpoint_hash], nothing is rolled back (the world is
    untouched) and processing resumes at [last_processed_block + 1]; if
    it differs, exactly the raw events with [block_number >=
    last_checkpoint_block] are deleted (the rows below stay, in their
    order), [last_processed_block] becomes [last_checkpoint_block - 1]
    and processing resumes at the checkpoint block. *)
Theorem reorg_detector_rollback (addr : string) (c : chain) (w : world) :
  faults w = [] ->
  let st := state_of addr (database w) in
  let cp := last_checkpoint_block st in
  (hash_at c cp = last_checkpoint_hash st ->
     reorgDetector addr c w = Done false w
     /\ resume_block st = last_processed_block st + 1)
  /\
  (hash_at c cp <> last_checkpoint_hash st ->
     exists w' : world,
       reorgDetector addr c w = Done true w'
       /\ blockchain_events (database w')
          = filter (fun r => block_number r <? cp) (blockchain_events (database w))
       /\ (forall r, In r (blockchain_events (database w'))
                     <-> In r (blockchain_events (database w)) /\ block_number r < cp)
       /\ last_processed_block (state_of addr (database w')) = cp - 1
       /\ last_checkpoint_block (state_of addr (database w')) = cp
       /\ resume_block (state_of addr (database w')) = cp).
Proof.
  intros Hcalm st cp. split.
  - intros Hsame. split; [| reflexivity].
    unfold reorgDetector, loadState, getBlock, rpc, bind.
    rewrite request_calm by exact Hcalm. simpl.
    destruct w as [d f a el]. simpl in *. subst f.
    unfold request. simpl. fold st. fold cp. rewrite Hsame.
    rewrite String.eqb_refl. reflexivity.
  - intros Hdiff.
    destruct w as [d f a el]. simpl in *. subst f.
    unfold reorgDetector, loadState, getBlock, rpc, rollback, deleteEventsFrom,
      deletePortfolioSince, saveState, bind, request. simpl.
    fold st. fold cp.
    apply String.eqb_neq in Hdiff. rewrite Hdiff. simpl.
    eexists. split; [reflexivity |]. simpl.
    split; [reflexivity |].
    split; [intros r; apply filter_below_spec |].
    assert (Haddr : contract_address (set_last_processed st (cp - 1)) = addr)
      by (simpl; apply state_of_address).
    unfold state_of. simpl.
    rewrite <- Haddr at 1 2 3.
    rewrite !find_upsert_same. simpl. unfold resume_block. simpl.
    repeat split; lia.
Qed.

Lemma reorg_detector_rollback_witness :
  exists w' : world,
    reorgDetector propertyShare notes_chain before_reorg = Done true w'
    /\ blockchain_events (database w')
       = [raw_event "SharesPurchased" purchase1 123005]
    /\ last_processed_block (state_of propertyShare (database w')) = 12399
    /\ resume_block (state_of propertyShare (database w')) = 12400.
Proof.
  destruct (reorg_detector_rollback propertyShare notes_chain before_reorg)
    as [_ Hdiff].
  - reflexivity.
  - destruct Hdiff as [w' [R [E [_ [P [_ S]]]]]].
    + vm_compute. discriminate.
    + exists w'. split; [exact R |]. split; [rewrite E; vm_compute; reflexivity |].
      split; [rewrite P; vm_compute; reflexivity | rewrite S; vm_compute; reflexivity].
Defined.

(** ** C2: a write to an application table fails *)

Section FailedWrite.

Variable isAddress : string -> bool.

(** The handler when the insert of the raw event goes through, the
    next [n] requests too, and the one after them fails. *)
Lemma handler_fails_after_insert (n : nat) (ev : DecodedEvent) (now : Z)
    (w : world) (fs : list bool) :
  (n <= 2)%nat ->
  valid_args isAddress (ev_args ev) = true ->
  faults w = (false :: repeat false n ++ true :: fs)%list ->
  exists w' : world,
    handleSharesPurchased isAddress ev now w = Threw NetworkError w'
    /\ blockchain_events (database w')
       = blockchain_events (insert_event (raw_event "SharesPurchased" ev now)
                                         (database w))
    /\ properties (database w')
       = (if Nat.eqb n 0 then properties (database w)
          else map (decrement_available (tokenId (ev_args ev)) (amount (ev_args ev)))
                   (properties (database w)))
    /\ user_portfolio (database w') = user_portfolio (database w)
    /\ indexer_state (database w') = indexer_state (database w)
    /\ faults w' = fs.
Proof.
  intros Hn Hvalid Hf. rewrite handler_as_steps.
  rewrite (bind_done _ _ w w tt) by (apply validateArgs_valid; exact Hvalid).
  destruct w as [d f ap el]. simpl in Hf. subst f.
  unfold storeEvent, applyDerived, updateProperties, getPortfolio,
    updatePortfolio, createPortfolio, mark_applied, bind, request.
  destruct n as [| [| [| n]]]; [| | | lia]; simpl.
  - eexists. split; [reflexivity |]. simpl.
    unfold insert_event. destruct (recorded _ _ _); repeat split.
  - eexists. split; [reflexivity |]. simpl.
    unfold insert_event. destruct (recorded _ _ _); repeat split.
  - destruct (find _ _) as [r |]; simpl.
    + eexists. split; [reflexivity |]. simpl.
      unfold insert_event. destruct (recorded _ _ _); repeat split.
    + eexists. split; [reflexivity |]. simpl.
      unfold insert_event. destruct (recorded _ _ _); repeat split.
Qed.

(** C2, as the code has it. In a batch in which the insert of the raw
    event of [ev] goes through and a later request of the handler of
    [ev] (the update of [properties], the lookup of the holding or the
    write of the holding) fails, nothing is undone: the batch ends with
    the exception, the raw event stays in the log, the writes made
    before the failing request stay (the decrement of
    [available_shares] when a later request fails; the writes of the
    earlier events of the batch are in the world the handler starts
    in), and neither the rest of the batch nor the checkpoint update
    runs: the checkpoint rows are as they were. *)
Theorem failed_write_keeps_raw_event (cfg : config) (c : chain)
    (st : indexer_state_row) (toBlock now : Z) (n : nat)
    (ev : DecodedEvent) (rest : list DecodedEvent) (w : world) (fs : list bool) :
  (n <= 2)%nat ->
  valid_args isAddress (ev_args ev) = true ->
  faults w = (false :: repeat false n ++ true :: fs)%list ->
  exists w' : world,
    (processEvents isAddress now (ev :: rest) ;;
     saveCheckpoint cfg c st toBlock now) w = Threw NetworkError w'
    /\ recorded (ev_tx ev) (ev_index ev) (blockchain_events (database w')) = true
    /\ blockchain_events (database w')
       = blockchain_events (insert_event (raw_event "SharesPurchased" ev now)
                                         (database w))
    /\ properties (database w')
       = (if Nat.eqb n 0 then properties (database w)
          else map (decrement_available (tokenId (ev_args ev)) (amount (ev_args ev)))
                   (properties (database w)))
    /\ user_portfolio (database w') = user_portfolio (database w)
    /\ indexer_state (database w') = indexer_state (database w)
    /\ faults w' = fs.
Proof.
  intros Hn Hvalid Hf.
  destruct (handler_fails_after_insert n ev now w fs Hn Hvalid Hf)
    as [w' [R [E [P [U [S F]]]]]].
  exists w'. split.
  - apply bind_threw. simpl. apply bind_threw. exact R.
  - split; [| repeat split; assumption].
    rewrite E. apply (recorded_insert_self (raw_event "SharesPurchased" ev now)).
Qed.

End FailedWrite.

(** The claim as the spec words it fails: the raw event of the failed
    batch is persisted, the state after the batch is not the state
    before it. *)
Lemma failed_batch_is_not_undone :
  let run := (processEvents isHexAddress 1000 [purchase1] ;;
              saveCheckpoint notes_config notes_chain notes_state 13450 1000)
             second_request_fails in
  run = Threw NetworkError (mkWorld (database (world_of run)) [] [] [])
  /\ blockchain_events (database second_request_fails) = []
  /\ blockchain_events (database (world_of run))
     = [raw_event "SharesPurchased" purchase1 1000]
  /\ database (world_of run) <> database second_request_fails.
Proof.
  vm_compute. repeat split. discriminate.
Qed.

Lemma failed_write_keeps_raw_event_witness :
  exists w' : world,
    (processEvents isHexAddress 1000 [purchase1] ;;
     saveCheckpoint notes_config notes_chain notes_state 13450 1000)
      second_request_fails = Threw NetworkError w'
    /\ recorded (ev_tx purchase1) (ev_index purchase1)
                (blockchain_events (database w')) = true
    /\ indexer_state (database w') = [notes_state].
Proof.
  destruct (failed_write_keeps_raw_event isHexAddress notes_config notes_chain
              notes_state 13450 1000 0 purchase1 [] second_request_fails [])
    as [w' [H1 [H2 [_ [_ [_ [H3 _]]]]]]].
  - apply le_0_n.
  - vm_compute. reflexivity.
  - reflexivity.
  - exists w'. split; [exact H1 |]. split; [exact H2 | exact H3].
Defined.

(** ** C3: a second delivery of a recorded event *)

Section Redelivery.

Variable isAddress : string -> bool.

(** C3, as the code has it. For every event whose (transaction hash,
    log index) pair is already in the raw event log, the insert of a
    second delivery is rejected by the unique constraint and changes
    nothing, and the rejection is no error: [storeEvent] returns, and
    so does the handler when no request fails, with the raw event log
    as it was. *)
Theorem duplicate_insert_is_benign (ev : DecodedEvent) (now : Z) (w : world) :
  faults w = [] ->
  valid_args isAddress (ev_args ev) = true ->
  recorded (ev_tx ev) (ev_index ev) (blockchain_events (database w)) = true ->
  storeEvent "SharesPurchased" ev now w = Done tt w
  /\ exists w' : world,
       handleSharesPurchased isAddress ev now w = Done tt w'
       /\ blockchain_events (database w') = blockchain_events (database w).
Proof.
  intros Hcalm Hvalid Hrec. split.
  - unfold storeEvent. rewrite request_calm by exact Hcalm.
    rewrite insert_recorded by exact Hrec.
    destruct w as [d f ap el]. reflexivity.
  - eexists. split; [apply handler_calm; assumption |].
    simpl. rewrite insert_recorded by exact Hrec. reflexivity.
Qed.

End Redelivery.

(** The claim as the spec words it fails: [purchase1] is processed,
    its row is in the log, and a second delivery decrements the
    available shares and increments the holding once more. *)
Lemma redelivery_applies_again :
  let w1 := world_of (handleSharesPurchased isHexAddress purchase1 1000 (calm shop_db)) in
  let w2 := world_of (handleSharesPurchased isHexAddress purchase1 1000 w1) in
  recorded (ev_tx purchase1) (ev_index purchase1) (blockchain_events (database w1)) = true
  /\ blockchain_events (database w2) = blockchain_events (database w1)
  /\ derived (database w1)
     = ([mkProperty 1 90], [mkPortfolio (toLowerCase alice) 1 10 1000])
  /\ derived (database w2)
     = ([mkProperty 1 80], [mkPortfolio (toLowerCase alice) 1 20 1000])
  /\ derived (database w2) <> derived (database w1).
Proof.
  vm_compute. repeat split; discriminate.
Qed.

Lemma duplicate_insert_is_benign_witness :
  exists w' : world,
    handleSharesPurchased isHexAddress purchase1 1000
      (world_of (handleSharesPurchased isHexAddress purchase1 1000 (calm shop_db)))
    = Done tt w'
    /\ blockchain_events (database w')
       = [raw_event "SharesPurchased" purchase1 1000].
Proof.
  destruct (duplicate_insert_is_benign isHexAddress purchase1 1000
              (world_of (handleSharesPurchased isHexAddress purchase1 1000 (calm shop_db))))
    as [_ [w' [H1 H2]]].
  - vm_compute. reflexivity.
  - vm_compute. reflexivity.
  - vm_compute. reflexivity.
  - exists w'. split; [exact H1 | rewrite H2; vm_compute; reflexivity].
Defined.

(** ** C4: the state after a rollback and the replay of the raw events *)

(** C4 fails on the code. Before the reorg the application tables are
    what the replay of the raw event log gives.  The rollback to block
    12400 deletes the raw event of block 12410 and, by [last_updated],
    the whole holding, the 10 shares bought in block 12300 with it; the
    replay of the remaining raw event gives a holding of 10. *)
Theorem rollback_loses_earlier_shares :
  derived (database before_reorg) = replay (blockchain_events (database before_reorg))
  /\ user_portfolio (database before_reorg)
     = [mkPortfolio (toLowerCase alice) 1 15 124105]
  /\ reorgDetector propertyShare notes_chain before_reorg = Done true after_reorg
  /\ blockchain_events (database after_reorg)
     = [raw_event "SharesPurchased" purchase1 123005]
  /\ last_processed_block (state_of propertyShare (database after_reorg)) = 12399
  /\ derived (database after_reorg) = ([], [])
  /\ replay (blockchain_events (database after_reorg))
     = ([], [mkPortfolio (toLowerCase alice) 1 10 123005])
  /\ derived (database after_reorg)
     <> replay (blockchain_events (database after_reorg)).
Proof.
  vm_compute. repeat split. discriminate.
Qed.

(** ** C5: a batch delivered twice *)

(** C5 fails on the code. The batch of the two purchases, applied
    once to the shop, leaves 85 available shares and a holding of 15;
    applied twice it leaves 70 and 30, with the same two rows in the
    raw event log. *)
Theorem batch_twice_differs :
  let batch := [purchase1; purchase2] in
  let once := world_of (processEvents isHexAddress 1000 batch (calm shop_db)) in
  let twice := world_of (processEvents isHexAddress 1000 batch once) in
  derived (database once)
  = ([mkProperty 1 85], [mkPortfolio (toLowerCase alice) 1 15 1000])
  /\ derived (database twice)
     = ([mkProperty 1 70], [mkPortfolio (toLowerCase alice) 1 30 1000])
  /\ blockchain_events (database twice) = blockchain_events (database once)
  /\ returned (processEvents isHexAddress 1000 batch once) = true.
Proof.
  vm_compute. repeat split.
Qed.

(** The batch loop of the notes delivers a boundary block twice: its
    ranges are 12000..13000 and 13000..14000, and the purchase of block
    13000 is applied in both turns. *)
Lemma batch_loop_applies_boundary_block_twice :
  let w := world_of (batchLoop isHexAddress sample_decode boundary_chain
                               propertyShare 12000 13000 7 (calm shop_db)) in
  map block_number (blockchain_events (database w)) = [13000]
  /\ derived (database w)
     = ([mkProperty 1 80], [mkPortfolio (toLowerCase alice) 1 20 7]).
Proof.
  vm_compute. split; reflexivity.
Qed.

(** ** C6: the order of checkpoint and last processed block *)

(** A request that leaves [indexer_state] alone keeps the invariant. *)
Lemma keeps_close_request {A : Type} (stmt : db -> error + (A * db)) :
  (forall d a d', stmt d = inr (a, d') -> indexer_state d' = indexer_state d) ->
  keeps checkpoints_close (request stmt).
Proof.
  intros H. apply keeps_request.
  - intros w f Hw. exact Hw.
  - intros w a d Hw Hs. unfold checkpoints_close. simpl.
    rewrite (H _ _ _ Hs). exact Hw.
Qed.

Lemma saveState_keeps_close (r : indexer_state_row) :
  checkpoint_close r -> keeps checkpoints_close (saveState r).
Proof.
  intros Hr. unfold saveState. apply keeps_request.
  - intros w f Hw. exact Hw.
  - intros w a d Hw Hs. inversion Hs. unfold checkpoints_close. simpl.
    apply upsert_Forall; assumption.
Qed.

Lemma rollback_keeps_close (st : indexer_state_row) (ts : Z) :
  keeps checkpoints_close (rollback st ts).
Proof.
  unfold rollback. apply keeps_bind.
  { apply keeps_close_request. intros d a d' H. inversion H. reflexivity. }
  intros _. apply keeps_bind.
  { apply keeps_close_request. intros d a d' H. inversion H. reflexivity. }
  intros _. apply saveState_keeps_close.
  unfold checkpoint_close. simpl. lia.
Qed.

Lemma rpc_keeps_close {A : Type} (a : A) : keeps checkpoints_close (rpc a).
Proof.
  apply keeps_close_request. intros d x d' H. inversion H. reflexivity.
Qed.

Lemma loadState_close (addr : string) :
  hoare checkpoints_close (loadState addr)
        (fun st w => checkpoints_close w /\ checkpoint_close st)
        checkpoints_close.
Proof.
  unfold loadState. apply hoare_request.
  - intros w f Hw. exact Hw.
  - auto.
  - intros w Hw. split.
    + destruct w; exact Hw.
    + apply state_of_Forall; [apply behind_close, zero_state_behind | exact Hw].
Qed.

Lemma reorgDetector_keeps_close (addr : string) (c : chain) :
  keeps checkpoints_close (reorgDetector addr c).
Proof.
  unfold reorgDetector, keeps.
  eapply hoare_bind; [apply loadState_close |].
  intros st. apply hoare_pure. intros _.
  apply keeps_bind; [apply rpc_keeps_close |].
  intros blk. destruct (String.eqb (fst blk) (last_checkpoint_hash st)).
  - apply hoare_ret. auto.
  - apply keeps_bind; [apply rollback_keeps_close |].
    intros _. apply hoare_ret. auto.
Qed.

(** The checkpoint row written after a batch: the checkpoint block is
    not ahead of the last processed block. *)
Lemma saved_row_behind (n toBlock : Z) (st : indexer_state_row) :
  0 < n ->
  checkpoint_close st ->
  last_processed_block st < toBlock ->
  toBlock / n * n <= toBlock /\ last_checkpoint_block st <= toBlock.
Proof.
  unfold checkpoint_close. intros Hn Hst Hlt. split.
  - rewrite Z.mul_comm. apply Z.mul_div_le. exact Hn.
  - lia.
Qed.

Lemma saveCheckpoint_behind (cfg : config) (c : chain) (st : indexer_state_row)
    (toBlock now : Z) (w w' : world) :
  0 < checkpointInterval cfg ->
  checkpoint_close st ->
  last_processed_block st < toBlock ->
  saveCheckpoint cfg c st toBlock now w = Done tt w' ->
  checkpoint_behind (state_of (contract_address st) (database w'))
  /\ last_processed_block (state_of (contract_address st) (database w')) = toBlock.
Proof.
  intros Hn Hst Hlt H.
  destruct (saved_row_behind _ _ _ Hn Hst Hlt) as [B1 B2].
  unfold saveCheckpoint, getBlock, rpc, bind in H.
  destruct (request _ w) as [blk w1 | e w1]; [| discriminate].
  destruct (last_processed_block st / checkpointInterval cfg
            <? toBlock / checkpointInterval cfg).
  - destruct (request _ w1) as [cblk w2 | e w2]; [| discriminate].
    apply saveState_result in H. simpl in H. rewrite H.
    unfold checkpoint_behind. simpl. split; [exact B1 | reflexivity].
  - apply saveState_result in H. simpl in H. rewrite H.
    unfold checkpoint_behind. simpl. split; [exact B2 | reflexivity].
Qed.

Lemma saveCheckpoint_keeps_close (cfg : config) (c : chain) (st : indexer_state_row)
    (toBlock now : Z) :
  0 < checkpointInterval cfg ->
  checkpoint_close st ->
  last_processed_block st < toBlock ->
  keeps checkpoints_close (saveCheckpoint cfg c st toBlock now).
Proof.
  intros Hn Hst Hlt.
  destruct (saved_row_behind _ _ _ Hn Hst Hlt) as [B1 B2].
  unfold saveCheckpoint.
  apply keeps_bind; [apply rpc_keeps_close |]. intros blk.
  destruct (last_processed_block st / checkpointInterval cfg
            <? toBlock / checkpointInterval cfg).
  - apply keeps_bind; [apply rpc_keeps_close |]. intros cblk.
    apply saveState_keeps_close. unfold checkpoint_close. simpl. lia.
  - apply saveState_keeps_close. unfold checkpoint_close. simpl. lia.
Qed.

Section Driver.

Variable isAddress : string -> bool.
Variable decode : RawLog -> decoded.

Lemma processLogs_keeps_close (now : Z) (logs : list RawLog) :
  keeps checkpoints_close (processLogs isAddress decode now logs).
Proof.
  apply processLogs_keeps.
  - intros w el Hw. exact Hw.
  - intros ev t. apply (handler_keeps_indexer_state isAddress (Forall checkpoint_close)).
Qed.

Lemma cycle_keeps_close (cfg : config) (addr : string) (c : chain) (now : Z) :
  0 < checkpointInterval cfg ->
  keeps checkpoints_close (cycle isAddress decode cfg addr c now).
Proof.
  intros Hn. unfold cycle.
  apply keeps_bind; [apply reorgDetector_keeps_close |]. intros _.
  unfold keeps. eapply hoare_bind; [apply loadState_close |].
  intros st. apply hoare_pure. intros Hst.
  apply keeps_bind; [apply rpc_keeps_close |]. intros latest.
  destruct (nextToBlock cfg latest st <=? last_processed_block st) eqn:E.
  - apply hoare_ret. auto.
  - apply Z.leb_gt in E.
    apply keeps_bind; [apply rpc_keeps_close |]. intros logs.
    apply keeps_bind; [apply processLogs_keeps_close |]. intros _.
    apply saveCheckpoint_keeps_close; assumption.
Qed.

(** C6, as the code has it. In every state of the checkpoint store
    that the driver reaches, [last_checkpoint_block <=
    last_processed_block + 1].  The zero-valued first checkpoint and
    the row saved by a successful batch commit satisfy
    [last_checkpoint_block <= last_processed_block]; a rollback leaves
    [last_processed_block = last_checkpoint_block - 1], one block
    behind the checkpoint, until the next batch is committed. *)
Theorem checkpoint_stays_close (cfg : config) (w : world) :
  0 < checkpointInterval cfg ->
  reachable isAddress decode cfg w ->
  (forall addr, checkpoint_close (state_of addr (database w)))
  /\ (forall addr, checkpoint_behind (zero_state addr))
  /\ (forall (c : chain) (addr : string) (toBlock now : Z) (w0 w' : world),
        last_processed_block (state_of addr (database w)) < toBlock ->
        saveCheckpoint cfg c (state_of addr (database w)) toBlock now w0 = Done tt w' ->
        checkpoint_behind (state_of addr (database w'))
        /\ last_processed_block (state_of addr (database w')) = toBlock)
  /\ (forall (addr : string) (ts : Z) (w0 w' : world),
        rollback (state_of addr (database w)) ts w0 = Done tt w' ->
        last_processed_block (state_of addr (database w'))
        = last_checkpoint_block (state_of addr (database w')) - 1
        /\ last_checkpoint_block (state_of addr (database w'))
           = last_checkpoint_block (state_of addr (database w))).
Proof.
  intros Hn Hreach.
  assert (Hclose : checkpoints_close w).
  { induction Hreach as [w Hstart | w addr c now Hreach IH | w f Hreach IH].
    - unfold checkpoints_close. eapply Forall_impl; [| exact Hstart].
      intros r. apply behind_close.
    - apply keeps_world_of; [apply cycle_keeps_close; exact Hn | exact IH].
    - exact IH. }
  assert (Hall : forall addr, checkpoint_close (state_of addr (database w))).
  { intros addr. apply state_of_Forall; [apply behind_close, zero_state_behind |].
    exact Hclose. }
  split; [exact Hall |].
  split; [apply zero_state_behind |].
  split.
  - intros c addr toBlock now w0 w' Hlt Hsave.
    pose proof (saveCheckpoint_behind cfg c (state_of addr (database w)) toBlock now
                  w0 w' Hn (Hall addr) Hlt Hsave) as K.
    rewrite state_of_address in K. exact K.
  - intros addr ts w0 w' Hroll.
    unfold rollback, deleteEventsFrom, deletePortfolioSince, bind in Hroll.
    destruct (request _ w0) as [u1 w1 | e w1]; [| discriminate].
    destruct (request _ w1) as [u2 w2 | e w2]; [| discriminate].
    apply saveState_result in Hroll. simpl in Hroll.
    rewrite state_of_address in Hroll. rewrite Hroll. simpl. split; lia.
Qed.

End Driver.

(** The claim as the spec words it fails: from the store of the notes'
    example (12450 / 12400, which satisfies the invariant), a turn of
    the driver detects the reorg, rolls back, and ends on a failed RPC
    request; the persisted checkpoint has [last_checkpoint_block =
    12400] ahead of [last_processed_block = 12399]. *)
Lemma rollback_breaks_checkpoint_order :
  let w := world_of (cycle isHexAddress sample_decode notes_config propertyShare
                           notes_chain 0 rpc_fails_after_rollback) in
  reachable isHexAddress sample_decode notes_config w
  /\ checkpoint_behind (state_of propertyShare (database rpc_fails_after_rollback))
  /\ last_processed_block (state_of propertyShare (database w)) = 12399
  /\ last_checkpoint_block (state_of propertyShare (database w)) = 12400
  /\ ~ checkpoint_behind (state_of propertyShare (database w)).
Proof.
  split.
  - apply reach_cycle. apply reach_start.
    constructor; [| constructor]. unfold checkpoint_behind. simpl. lia.
  - vm_compute. repeat split; try discriminate.
    intros H. apply H. reflexivity.
Qed.

Lemma checkpoint_stays_close_witness :
  checkpoint_close
    (state_of propertyShare
       (database (world_of (cycle isHexAddress sample_decode notes_config
                                  propertyShare notes_chain 0
                                  rpc_fails_after_rollback)))).
Proof.
  apply (checkpoint_stays_close isHexAddress sample_decode notes_config).
  - reflexivity.
  - apply reach_cycle. apply reach_start.
    constructor; [| constructor]. unfold checkpoint_behind. simpl. lia.
Defined.

(** ** C7: a batch with a log that does not decode *)

Section DecodeErrors.

Variable isAddress : string -> bool.
Variable decode : RawLog -> decoded.















End DecodeErrors.



(** ** C8: the order of two purchases on one holding *)

Section Ordering.

Variable isAddress : string -> bool.



End Ordering.



(** ** C9: applied events are recorded *)

Lemma recorded_then_frame (ev : DecodedEvent) (w : world) (d : db) (f : list bool) :
  blockchain_events d = blockchain_events (database w) ->
  recorded_then ev w ->
  recorded_then ev (mkWorld d f (applied w) (error_log w)).
Proof.
  intros Hd [Ha Hr]. split.
  - intros tx index Hin. simpl in *. rewrite Hd. apply Ha. exact Hin.
  - simpl. rewrite Hd. exact Hr.
Qed.

Lemma keeps_recorded_then_request {A : Type} (ev : DecodedEvent)
    (stmt : db -> error + (A * db)) :
  (forall d a d', stmt d = inr (a, d') -> blockchain_events d' = blockchain_events d) ->
  keeps (recorded_then ev) (request stmt).
Proof.
  intros Hframe. apply keeps_request.
  - intros w f Hw. apply recorded_then_frame; [reflexivity | exact Hw].
  - intros w a d Hw Hs. apply recorded_then_frame; [| exact Hw].
    eapply Hframe. exact Hs.
Qed.

Lemma keeps_recorded_then_mark (ev : DecodedEvent) :
  keeps (recorded_then ev) (mark_applied ev).
Proof.
  intros w [Ha Hr]. simpl. split.
  - intros tx index Hin. simpl in *. apply in_app_or in Hin.
    destruct Hin as [Hin | [Heq | []]].
    + apply Ha. exact Hin.
    + inversion Heq; subst. exact Hr.
  - exact Hr.
Qed.

Lemma applyDerived_keeps_recorded_then (ev : DecodedEvent) (now : Z) :
  keeps (recorded_then ev) (applyDerived ev now).
Proof.
  unfold applyDerived.
  apply keeps_bind.
  { apply keeps_recorded_then_request. intros d a d' H. inversion H. reflexivity. }
  intros _. apply keeps_bind; [apply keeps_recorded_then_mark |].
  intros _. apply keeps_bind.
  { apply keeps_recorded_then_request. intros d a d' H. inversion H. reflexivity. }
  intros existing. apply keeps_bind; [| intros _; apply keeps_recorded_then_mark].
  destruct existing as [r |].
  - apply keeps_recorded_then_request. intros d a d' H. inversion H. reflexivity.
  - apply keeps_recorded_then_request. intros d a d' H. cbv zeta in H.
    destruct (wallet_lowercase _); inversion H. reflexivity.
Qed.

Lemma storeEvent_records (ev : DecodedEvent) (name : string) (now : Z) :
  hoare applied_recorded (storeEvent name ev now)
        (fun _ => recorded_then ev) applied_recorded.
Proof.
  unfold storeEvent. apply hoare_request.
  - intros w f Hw tx index Hin. simpl. apply Hw. exact Hin.
  - auto.
  - intros w Hw. split.
    + intros tx index Hin. simpl. apply recorded_insert_mono. apply Hw. exact Hin.
    + simpl. apply (recorded_insert_self (raw_event name ev now)).
Qed.

Section AppliedRecorded.

Variable isAddress : string -> bool.
Variable decode : RawLog -> decoded.

Lemma handler_keeps_applied_recorded (ev : DecodedEvent) (now : Z) :
  keeps applied_recorded (handleSharesPurchased isAddress ev now).
Proof.
  rewrite handler_as_steps.
  apply keeps_bind; [apply validateArgs_keeps |].
  intros _. unfold keeps. eapply hoare_bind; [apply storeEvent_records |].
  intros u. eapply hoare_weaken; [apply applyDerived_keeps_recorded_then | | |].
  - auto.
  - intros u' w [H _]. exact H.
  - intros w [H _]. exact H.
Qed.

(** C9. While a batch is processed and after it, whatever requests
    fail and wherever the run stops (the persisted world of a run that
    threw is the one that a crash at that point leaves), every event
    for which a write to an application table went through has its row
    in the raw event log: the handler stores the raw event before its
    first write to an application table. *)
Theorem applied_events_are_recorded (now : Z) (evs : list DecodedEvent)
    (logs : list RawLog) (w : world) :
  applied_recorded w ->
  applied_recorded (world_of (processEvents isAddress now evs w))
  /\ applied_recorded (world_of (processLogs isAddress decode now logs w)).
Proof.
  intros Hw. split.
  - apply keeps_world_of; [| exact Hw].
    apply processEvents_keeps. apply handler_keeps_applied_recorded.
  - apply keeps_world_of; [| exact Hw].
    apply processLogs_keeps.
    + intros w0 el H tx index Hin. apply H. exact Hin.
    + apply handler_keeps_applied_recorded.
Qed.

End AppliedRecorded.

(** A recorded event whose writes have not been applied does exist in
    between: the run in which the request after the insert fails. *)
Lemma recorded_not_yet_applied :
  let w := world_of (handleSharesPurchased isHexAddress purchase1 1000
                                           second_request_fails) in
  recorded (ev_tx purchase1) (ev_index purchase1)
           (blockchain_events (database w)) = true
  /\ applied w = []
  /\ derived (database w) = derived shop_db.
Proof.
  vm_compute. repeat split.
Qed.

Lemma applied_events_are_recorded_witness :
  applied_recorded
    (world_of (processEvents isHexAddress 1001 [purchase2]
       (set_faults (world_of (processEvents isHexAddress 1000 [purchase1]
                                            (calm shop_db)))
                   [false; true]))).
Proof.
  apply (applied_events_are_recorded isHexAddress sample_decode 1001
           [purchase2] []
           (set_faults (world_of (processEvents isHexAddress 1000 [purchase1]
                                                (calm shop_db)))
                       [false; true])).
  intros tx index Hin. vm_compute in Hin.
  destruct Hin as [H | [H | []]]; inversion H; vm_compute; reflexivity.
Defined.


(** ** C10: wallet addresses as keys *)

Section Wallets.

Variable isAddress : string -> bool.

Lemma wallets_lowercase_frame (w : world) (d : db) (f : list bool)
    (ap : list (string * Z)) (el : list RawLog) :
  user_portfolio d = user_portfolio (database w) ->
  wallets_lowercase w -> wallets_lowercase (mkWorld d f ap el).
Proof.
  unfold wallets_lowercase. simpl. intros H Hw. rewrite H. exact Hw.
Qed.

Lemma increment_keeps_lowercase (wallet : string) (token amt now : Z)
    (r : portfolio_row) :
  wallet_lowercase r = true ->
  wallet_lowercase (increment_shares wallet token amt now r) = true.
Proof.
  unfold increment_shares. destruct (same_holding wallet token r); auto.
Qed.

Lemma keeps_lowercase_request {A : Type} (stmt : db -> error + (A * db)) :
  (forall d a d', stmt d = inr (a, d') ->
     Forall (fun r => wallet_lowercase r = true) (user_portfolio d) ->
     Forall (fun r => wallet_lowercase r = true) (user_portfolio d')) ->
  keeps wallets_lowercase (request stmt).
Proof.
  intros H. apply keeps_request.
  - intros w f Hw. exact Hw.
  - intros w a d Hw Hs. unfold wallets_lowercase. simpl.
    eapply H; eassumption.
Qed.

Lemma handler_keeps_lowercase (ev : DecodedEvent) (now : Z) :
  keeps wallets_lowercase (handleSharesPurchased isAddress ev now).
Proof.
  rewrite handler_as_steps.
  apply keeps_bind; [apply validateArgs_keeps |]. intros _.
  apply keeps_bind.
  { apply keeps_lowercase_request. intros d a d' H Hd. inversion H.
    unfold insert_event. destruct (recorded _ _ _); exact Hd. }
  intros _. unfold applyDerived. apply keeps_bind.
  { apply keeps_lowercase_request. intros d a d' H Hd. inversion H. exact Hd. }
  intros _. apply keeps_bind.
  { intros w Hw. exact Hw. }
  intros _. apply keeps_bind.
  { apply keeps_lowercase_request. intros d a d' H Hd. inversion H. subst. exact Hd. }
  intros existing. apply keeps_bind; [| intros _ w Hw; exact Hw].
  destruct existing as [r |].
  - apply keeps_lowercase_request. intros d a d' H Hd. inversion H. simpl.
    apply Forall_map. eapply Forall_impl; [| exact Hd].
    intros x Hx. apply increment_keeps_lowercase. exact Hx.
  - apply keeps_lowercase_request. intros d a d' H Hd. cbv zeta in H.
    destruct (wallet_lowercase _) eqn:E; inversion H. simpl.
    apply Forall_app. split; [exact Hd |]. constructor; [exact E | constructor].
Qed.

Lemma upsert_holding_found (wallet : string) (token amt now : Z)
    (l : list portfolio_row) :
  exists r, find (same_holding wallet token) (upsert_holding wallet token amt now l)
            = Some r.
Proof.
  unfold upsert_holding.
  destruct (find (same_holding wallet token) l) as [r |] eqn:E.
  - rewrite find_increment, E. simpl. eexists. reflexivity.
  - rewrite find_created by exact E. eexists. reflexivity.
Qed.

(** C10. Every wallet that a handler writes into [user_portfolio] is
    in lower case (the handler lowers the address before it uses it as
    a key), under any failures of requests, and the table's CHECK
    constraint rejects a row whose wallet is not; so for two purchases
    of a token whose buyer addresses differ in letter case only, the
    second handler finds the row the first one left, whose wallet is
    the lower-case address, and updates that row: its shares are those
    the first purchase left plus the amount of the second (the two
    amounts together when the buyer had no holding before), and no
    second row is created. *)
Theorem wallets_are_lowercase_keys (now : Z) (evs : list DecodedEvent)
    (e1 e2 : DecodedEvent) (t1 t2 : Z) (w : world) :
  wallets_lowercase w ->
  faults w = [] ->
  valid_args isAddress (ev_args e1) = true ->
  valid_args isAddress (ev_args e2) = true ->
  same_entity e1 e2 ->
  (forall w0 : world, wallets_lowercase w0 ->
     wallets_lowercase (world_of (processEvents isAddress now evs w0)))
  /\ (forall (wallet : string) (token amt : Z),
        wallet_lowercase (mkPortfolio wallet token amt now) = false ->
        createPortfolio wallet token amt now w = Threw CheckViolation w)
  /\ exists (w1 w2 : world) (r : portfolio_row),
       handleSharesPurchased isAddress e1 t1 w = Done tt w1
       /\ handleSharesPurchased isAddress e2 t2 w1 = Done tt w2
       /\ find (same_holding (toLowerCase (buyer (ev_args e2)))
                             (tokenId (ev_args e2)))
               (user_portfolio (database w1)) = Some r
       /\ wallet_address r = toLowerCase (buyer (ev_args e2))
       /\ portfolio_token r = tokenId (ev_args e2)
       /\ (find (same_holding (toLowerCase (buyer (ev_args e2)))
                              (tokenId (ev_args e2)))
                (user_portfolio (database w)) = None ->
           shares_owned r = amount (ev_args e1))
       /\ find (same_holding (toLowerCase (buyer (ev_args e2)))
                             (tokenId (ev_args e2)))
               (user_portfolio (database w2))
          = Some (mkPortfolio (toLowerCase (buyer (ev_args e2)))
                              (tokenId (ev_args e2))
                              (shares_owned r + amount (ev_args e2)) t2)
       /\ user_portfolio (database w2)
          = map (increment_shares (toLowerCase (buyer (ev_args e2)))
                                  (tokenId (ev_args e2)) (amount (ev_args e2)) t2)
                (user_portfolio (database w1))
       /\ List.length (user_portfolio (database w2))
          = List.length (user_portfolio (database w1))
       /\ wallets_lowercase w2.
Proof.
  intros Hlow Hcalm H1 H2 [Hw Ht]. split.
  - intros w0 H0. apply keeps_world_of; [| exact H0].
    apply processEvents_keeps. apply handler_keeps_lowercase.
  - split.
    { intros wallet token amt Hmixed. unfold createPortfolio.
      rewrite request_calm by exact Hcalm. cbv zeta. rewrite Hmixed. reflexivity. }
    destruct (upsert_holding_found (toLowerCase (buyer (ev_args e1)))
                (tokenId (ev_args e1)) (amount (ev_args e1)) t1
                (user_portfolio (database w))) as [r Hr].
    eexists. eexists. exists r.
    split; [apply handler_calm; assumption |].
    split; [apply handler_calm; [reflexivity | exact H2] |].
    simpl. rewrite <- Hw, <- Ht.
    assert (Hup : upsert_holding (toLowerCase (buyer (ev_args e1)))
                    (tokenId (ev_args e1)) (amount (ev_args e2)) t2
                    (upsert_holding (toLowerCase (buyer (ev_args e1)))
                       (tokenId (ev_args e1)) (amount (ev_args e1)) t1
                       (user_portfolio (database w)))
                  = map (increment_shares (toLowerCase (buyer (ev_args e1)))
                           (tokenId (ev_args e1)) (amount (ev_args e2)) t2)
                        (upsert_holding (toLowerCase (buyer (ev_args e1)))
                           (tokenId (ev_args e1)) (amount (ev_args e1)) t1
                           (user_portfolio (database w)))).
    { unfold upsert_holding at 1. rewrite Hr. reflexivity. }
    pose proof (find_some _ _ Hr) as [_ Hkey].
    assert (Hkeys : wallet_address r = toLowerCase (buyer (ev_args e1))
                    /\ portfolio_token r = tokenId (ev_args e1)).
    { unfold same_holding in Hkey. apply andb_true_iff in Hkey.
      destruct Hkey as [Ka Kt].
      apply String.eqb_eq in Ka. apply Z.eqb_eq in Kt. split; congruence. }
    destruct Hkeys as [Kw Kt].
    split; [exact Hr |].
    split; [exact Kw |].
    split; [exact Kt |].
    split.
    { intros Hnone. unfold upsert_holding in Hr. rewrite Hnone in Hr.
      rewrite find_created in Hr by exact Hnone.
      inversion Hr. reflexivity. }
    split.
    { rewrite Hup, find_increment, Hr. simpl.
      unfold increment_shares. rewrite Hkey, Kw, Kt. reflexivity. }
    split; [exact Hup |].
    split; [rewrite Hup; apply length_map |].
    pose proof (handler_keeps_lowercase e1 t1 w Hlow) as K1.
    rewrite (handler_calm isAddress e1 t1 w Hcalm H1) in K1.
    pose proof (handler_keeps_lowercase e2 t2 _ K1) as K2.
    rewrite handler_calm in K2 by (try reflexivity; exact H2).
    exact K2.
Qed.

End Wallets.

Lemma wallets_are_lowercase_keys_witness :
  exists w1 w2 : world,
    handleSharesPurchased isHexAddress purchase1 1000 (calm shop_db) = Done tt w1
    /\ handleSharesPurchased isHexAddress purchase2 1001 w1 = Done tt w2
    /\ find (same_holding (toLowerCase alice_upper) 1) (user_portfolio (database w2))
       = Some (mkPortfolio "0xabcdef0123456789abcdef0123456789abcdef01" 1 15 1001)
    /\ List.length (user_portfolio (database w2)) = 1%nat
    /\ List.length (user_portfolio (database w1)) = 1%nat.
Proof.
  destruct (wallets_are_lowercase_keys isHexAddress 0 [] purchase1 purchase2
              1000 1001 (calm shop_db))
    as [_ [_ [w1 [w2 [r [R1 [R2 [F1 [_ [_ [S [F2 [_ [L _]]]]]]]]]]]]]].
  - constructor.
  - reflexivity.
  - vm_compute. reflexivity.
  - vm_compute. reflexivity.
  - split; vm_compute; reflexivity.
  - exists w1, w2. split; [exact R1 |]. split; [exact R2 |].
    split.
    + etransitivity; [exact F2 |].
      rewrite (S eq_refl). vm_compute. reflexivity.
    + assert (L1 : List.length (user_portfolio (database w1)) = 1%nat).
      { vm_compute in R1. inversion R1. reflexivity. }
      split; [rewrite L; exact L1 | exact L1].
Defined.

(** * Further properties of the code *)

(** ** The raw event log under the handlers *)

Lemma not_recorded_key (tx : string) (index : Z) (l : list blockchain_event) :
  recorded tx index l = false -> ~ In (tx, index) (map raw_key l).
Proof.
  induction l as [| r rest IH]; simpl; intros H.
  - intros [].
  - apply orb_false_iff in H. destruct H as [H1 H2].
    intros [Heq | Hin].
    + unfold raw_key in Heq. inversion Heq; subst.
      unfold same_event in H1. rewrite String.eqb_refl, Z.eqb_refl in H1.
      discriminate.
    + apply (IH H2 Hin).
Qed.

Lemma insert_event_unique (r : blockchain_event) (d : db) :
  NoDup (map raw_key (blockchain_events d)) ->
  NoDup (map raw_key (blockchain_events (insert_event r d))).
Proof.
  intros H. unfold insert_event.
  destruct (recorded (transaction_hash r) (log_index r) (blockchain_events d)) eqn:E.
  - exact H.
  - simpl. rewrite map_app. simpl.
    apply NoDup_app.
    + exact H.
    + constructor; [intros [] | constructor].
    + intros k Hk [Heq | []]. subst k.
      apply (not_recorded_key _ _ _ E). exact Hk.
Qed.

Section LogUnderHandlers.

Variable isAddress : string -> bool.

Lemma processEvents_keeps_in (I : world -> Prop) (now : Z) (evs : list DecodedEvent) :
  (forall ev, In ev evs -> keeps I (handleSharesPurchased isAddress ev now)) ->
  keeps I (processEvents isAddress now evs).
Proof.
  induction evs as [| e rest IH]; intros H; simpl.
  - apply hoare_ret. auto.
  - apply keeps_bind.
    + apply H. left. reflexivity.
    + intros _. apply IH. intros ev Hin. apply H. right. exact Hin.
Qed.

(** X1. "This table is immutable - never updated, only inserted":
    whatever requests fail and however the batch ends, the raw event
    log after a batch is the log before it, row for row and in order,
    followed by rows of events of the batch, stored at the time of the
    batch. *)
Theorem raw_log_is_append_only (now : Z) (evs : list DecodedEvent) (w : world) :
  extends_log (blockchain_events (database w)) now evs
              (world_of (processEvents isAddress now evs w)).
Proof.
  apply (keeps_world_of (extends_log (blockchain_events (database w)) now evs)).
  - apply processEvents_keeps_in. intros ev Hin.
    apply handler_keeps; try (intros w0 f H; exact H); try (intros w0 l H; exact H).
    + intros w0 [added [E F]]. unfold extends_log. simpl. unfold insert_event.
      destruct (recorded _ _ _).
      * exists added. split; assumption.
      * exists (added ++ [raw_event "SharesPurchased" ev now])%list. simpl. split.
        -- rewrite E. rewrite <- app_assoc. reflexivity.
        -- apply Forall_app. split; [exact F |].
           constructor; [| constructor]. exists ev. split; [exact Hin | reflexivity].
    + intros w0 H. exact H.
  - exists []. split; [rewrite app_nil_r; reflexivity | constructor].
Qed.

(** X2. The unique constraint is an invariant of the processing: if no
    two rows of the raw event log share their (transaction hash, log
    index) before a batch, none do after it, whatever requests fail;
    a redelivered event never gets a second row. *)
Theorem unique_constraint_is_kept (now : Z) (evs : list DecodedEvent) (w : world) :
  unique_events w ->
  unique_events (world_of (processEvents isAddress now evs w)).
Proof.
  intros H. apply keeps_world_of; [| exact H].
  apply processEvents_keeps. intros ev t.
  apply handler_keeps; try (intros w0 f H0; exact H0); try (intros w0 l H0; exact H0).
  - intros w0 H0. unfold unique_events. simpl. apply insert_event_unique. exact H0.
  - intros w0 H0. exact H0.
Qed.

End LogUnderHandlers.

Lemma unique_constraint_is_kept_witness :
  unique_events
    (world_of (processEvents isHexAddress 1000 [purchase1; purchase2; purchase1]
                             second_request_fails)).
Proof.
  apply (unique_constraint_is_kept isHexAddress 1000 [purchase1; purchase2; purchase1]
           second_request_fails).
  constructor.
Defined.

(** ** "Scenario 2": the next run after a failed write *)

Section Retry.

Variable isAddress : string -> bool.

(** The handler fails at the request number [n + 2] of an event, and
    the next run processes the event again without a failure. *)
Lemma retry_after_failed_request (n : nat) (ev : DecodedEvent) (now1 now2 : Z)
    (w : world) :
  (n <= 2)%nat ->
  valid_args isAddress (ev_args ev) = true ->
  faults w = (false :: repeat false n ++ [true])%list ->
  exists w1 w2 : world,
    handleSharesPurchased isAddress ev now1 w = Threw NetworkError w1
    /\ handleSharesPurchased isAddress ev now2 w1 = Done tt w2
    /\ blockchain_events (database w2)
       = blockchain_events (handled ev now1 (database w))
    /\ properties (database w2)
       = map (decrement_available (tokenId (ev_args ev))
                (if Nat.eqb n 0 then amount (ev_args ev)
                 else amount (ev_args ev) + amount (ev_args ev)))
             (properties (database w))
    /\ user_portfolio (database w2)
       = upsert_holding (toLowerCase (buyer (ev_args ev))) (tokenId (ev_args ev))
                        (amount (ev_args ev)) now2 (user_portfolio (database w))
    /\ indexer_state (database w2) = indexer_state (database w).
Proof.
  intros Hn Hvalid Hf.
  destruct (handler_fails_after_insert isAddress n ev now1 w [] Hn Hvalid Hf)
    as [w1 [R [E [P [U [S F]]]]]].
  exists w1. eexists. split; [exact R |].
  split; [apply handler_calm; assumption |].
  simpl. rewrite U, S, P.
  split.
  - rewrite insert_recorded; [exact E |].
    rewrite E. apply (recorded_insert_self (raw_event "SharesPurchased" ev now1)).
  - split; [| split; reflexivity].
    destruct (Nat.eqb n 0); [reflexivity |].
    rewrite map_map. apply map_ext. intros p. apply decrement_twice.
Qed.

(** X5. "Scenario 2: Database Write Fails" ends as the notes say when
    the write that failed is the update of [properties]: after the
    next run, in which [storeEvent] skips the duplicate and the updates
    go through, the application tables are those of one application of
    the event, and the raw event log holds the row stored by the first
    run. *)
Theorem scenario_2_recovers (ev : DecodedEvent) (now1 now2 : Z) (w : world) :
  valid_args isAddress (ev_args ev) = true ->
  faults w = [false; true] ->
  exists w1 w2 : world,
    handleSharesPurchased isAddress ev now1 w = Threw NetworkError w1
    /\ handleSharesPurchased isAddress ev now2 w1 = Done tt w2
    /\ derived (database w2) = derived (handled ev now2 (database w))
    /\ blockchain_events (database w2)
       = blockchain_events (handled ev now1 (database w))
    /\ indexer_state (database w2) = indexer_state (database w).
Proof.
  intros Hvalid Hf.
  destruct (retry_after_failed_request 0 ev now1 now2 w (le_0_n 2) Hvalid Hf)
    as [w1 [w2 [R1 [R2 [E [P [U S]]]]]]].
  exists w1, w2. split; [exact R1 |]. split; [exact R2 |].
  split; [| split; assumption].
  unfold derived. rewrite P, U. reflexivity.
Qed.

(** X6. When the request that fails comes after the update of
    [properties] (the lookup of the holding, or its write), the next
    run does not recover the state of one application: the available
    shares of the token have been decremented twice, by [amount +
    amount], while the holding is credited once. *)
Theorem retry_decrements_twice (n : nat) (ev : DecodedEvent) (now1 now2 : Z)
    (w : world) :
  (1 <= n <= 2)%nat ->
  valid_args isAddress (ev_args ev) = true ->
  faults w = (false :: repeat false n ++ [true])%list ->
  exists w1 w2 : world,
    handleSharesPurchased isAddress ev now1 w = Threw NetworkError w1
    /\ handleSharesPurchased isAddress ev now2 w1 = Done tt w2
    /\ properties (database w2)
       = map (decrement_available (tokenId (ev_args ev))
                                  (amount (ev_args ev) + amount (ev_args ev)))
             (properties (database w))
    /\ user_portfolio (database w2)
       = upsert_holding (toLowerCase (buyer (ev_args ev))) (tokenId (ev_args ev))
                        (amount (ev_args ev)) now2 (user_portfolio (database w)).
Proof.
  intros [Hn1 Hn2] Hvalid Hf.
  destruct (retry_after_failed_request n ev now1 now2 w Hn2 Hvalid Hf)
    as [w1 [w2 [R1 [R2 [E [P [U S]]]]]]].
  exists w1, w2. split; [exact R1 |]. split; [exact R2 |].
  split; [| exact U].
  rewrite P. destruct n as [| n]; [lia | reflexivity].
Qed.

End Retry.

Lemma scenario_2_recovers_witness :
  exists w1 w2 : world,
    handleSharesPurchased isHexAddress purchase1 1000 second_request_fails
    = Threw NetworkError w1
    /\ handleSharesPurchased isHexAddress purchase1 1005 w1 = Done tt w2
    /\ derived (database w2)
       = ([mkProperty 1 90], [mkPortfolio (toLowerCase alice) 1 10 1005]).
Proof.
  destruct (scenario_2_recovers isHexAddress purchase1 1000 1005 second_request_fails)
    as [w1 [w2 [R1 [R2 [D _]]]]].
  - vm_compute. reflexivity.
  - reflexivity.
  - exists w1, w2. split; [exact R1 |]. split; [exact R2 |].
    rewrite D. vm_compute. reflexivity.
Defined.

Lemma retry_decrements_twice_witness :
  exists w1 w2 : world,
    handleSharesPurchased isHexAddress purchase1 1000
      (mkWorld shop_db [false; false; false; true] [] [])
    = Threw NetworkError w1
    /\ handleSharesPurchased isHexAddress purchase1 1005 w1 = Done tt w2
    /\ properties (database w2) = [mkProperty 1 80]
    /\ user_portfolio (database w2) = [mkPortfolio (toLowerCase alice) 1 10 1005].
Proof.
  destruct (retry_decrements_twice isHexAddress 2 purchase1 1000 1005
              (mkWorld shop_db [false; false; false; true] [] []))
    as [w1 [w2 [R1 [R2 [P U]]]]].
  - split; [apply le_S, le_n | apply le_n].
  - vm_compute. reflexivity.
  - reflexivity.
  - exists w1, w2. split; [exact R1 |]. split; [exact R2 |].
    split; [rewrite P | rewrite U]; vm_compute; reflexivity.
Defined.

(** ** One row per holding, and the count of shares *)

Lemma keys_after_increment (wallet : string) (token amt now : Z)
    (l : list portfolio_row) :
  map holding_key (map (increment_shares wallet token amt now) l) = map holding_key l.
Proof.
  rewrite map_map. apply map_ext. intros r.
  unfold increment_shares. destruct (same_holding wallet token r); reflexivity.
Qed.

Lemma find_none_no_key (wallet : string) (token : Z) (l : list portfolio_row) :
  find (same_holding wallet token) l = None ->
  ~ In (wallet, token) (map holding_key l).
Proof.
  induction l as [| r rest IH]; simpl; intros H.
  - intros [].
  - destruct (same_holding wallet token r) eqn:E; [discriminate |].
    intros [Heq | Hin].
    + unfold holding_key in Heq. inversion Heq; subst.
      unfold same_holding in E. rewrite String.eqb_refl, Z.eqb_refl in E.
      discriminate.
    + apply (IH H Hin).
Qed.

Lemma no_key_find_none (wallet : string) (token : Z) (l : list portfolio_row) :
  ~ In (wallet, token) (map holding_key l) ->
  find (same_holding wallet token) l = None.
Proof.
  induction l as [| r rest IH]; simpl; intros H.
  - reflexivity.
  - destruct (same_holding wallet token r) eqn:E.
    + exfalso. apply H. left. unfold same_holding in E.
      apply andb_true_iff in E. destruct E as [E1 E2].
      apply String.eqb_eq in E1. apply Z.eqb_eq in E2.
      unfold holding_key. rewrite E1, E2. reflexivity.
    + apply IH. intros Hin. apply H. right. exact Hin.
Qed.

Lemma upsert_holding_unique (wallet : string) (token amt now : Z)
    (l : list portfolio_row) :
  unique_holdings l -> unique_holdings (upsert_holding wallet token amt now l).
Proof.
  unfold unique_holdings, upsert_holding. intros H.
  destruct (find (same_holding wallet token) l) as [r |] eqn:E.
  - rewrite keys_after_increment. exact H.
  - rewrite map_app. simpl. apply NoDup_app.
    + exact H.
    + constructor; [intros [] | constructor].
    + intros k Hk [Heq | []]. subst k.
      apply (find_none_no_key _ _ _ E). exact Hk.
Qed.

Section Holdings.

Variable isAddress : string -> bool.

Lemma handler_keeps_unique_holdings (ev : DecodedEvent) (now : Z) :
  keeps (fun w => unique_holdings (user_portfolio (database w)))
        (handleSharesPurchased isAddress ev now).
Proof.
  rewrite handler_as_steps.
  apply keeps_bind; [apply validateArgs_keeps |]. intros _.
  apply keeps_bind.
  { apply keeps_request; [intros w f H; exact H |].
    intros w a d H Hs. inversion Hs. simpl.
    unfold insert_event. destruct (recorded _ _ _); exact H. }
  intros _. unfold applyDerived. apply keeps_bind.
  { apply keeps_request; [intros w f H; exact H |].
    intros w a d H Hs. inversion Hs. exact H. }
  intros _. apply keeps_bind; [intros w H; exact H |]. intros _.
  unfold keeps.
  eapply hoare_bind with
    (Q := fun existing w =>
            unique_holdings (user_portfolio (database w))
            /\ existing = find (same_holding (toLowerCase (buyer (ev_args ev)))
                                             (tokenId (ev_args ev)))
                               (user_portfolio (database w))).
  { unfold getPortfolio. apply hoare_request.
    - intros w f H. exact H.
    - auto.
    - intros w H. simpl. split; [exact H | reflexivity]. }
  intros existing. apply hoare_bind with (Q := fun _ w =>
    unique_holdings (user_portfolio (database w)));
    [| intros _ w H; exact H].
  destruct existing as [r |].
  - unfold updatePortfolio. apply hoare_request.
    + intros w f H. exact H.
    + intros w [H _]. exact H.
    + intros w [H _]. simpl. unfold unique_holdings.
      rewrite keys_after_increment. exact H.
  - unfold createPortfolio. apply hoare_request.
    + intros w f H. exact H.
    + intros w [H _]. exact H.
    + intros w [H Hnone]. cbv zeta.
      destruct (wallet_lowercase _); [| exact H].
      simpl. unfold unique_holdings. rewrite map_app. simpl.
      apply NoDup_app.
      * exact H.
      * constructor; [intros [] | constructor].
      * intros k Hk [Heq | []]. subst k.
        symmetry in Hnone. apply (find_none_no_key _ _ _ Hnone). exact Hk.
Qed.

(** X7. The upsert of the holding keeps the natural key unique: if
    [user_portfolio] has at most one row per (wallet, token) before a
    batch, it has at most one row per (wallet, token) after it,
    whatever requests fail. *)
Theorem holdings_stay_unique (now : Z) (evs : list DecodedEvent) (w : world) :
  unique_holdings (user_portfolio (database w)) ->
  unique_holdings
    (user_portfolio (database (world_of (processEvents isAddress now evs w)))).
Proof.
  intros H.
  apply (keeps_world_of (fun w0 => unique_holdings (user_portfolio (database w0))));
    [| exact H].
  apply processEvents_keeps. apply handler_keeps_unique_holdings.
Qed.

End Holdings.

Lemma holdings_stay_unique_witness :
  unique_holdings
    (user_portfolio
       (database (world_of (processEvents isHexAddress 1000
                              [purchase1; purchase2; purchase1] (calm shop_db))))).
Proof.
  apply (holdings_stay_unique isHexAddress 1000 [purchase1; purchase2; purchase1]
           (calm shop_db)).
  constructor.
Defined.

Lemma available_of_cons (t : Z) (p : property_row) (l : list property_row) :
  available_of t (p :: l)
  = if t =? token_id p then available_shares p + available_of t l
    else available_of t l.
Proof.
  reflexivity.
Qed.

Lemma rows_of_token_cons (t : Z) (p : property_row) (l : list property_row) :
  rows_of_token t (p :: l)
  = if t =? token_id p then S (rows_of_token t l) else rows_of_token t l.
Proof.
  unfold rows_of_token. simpl. destruct (t =? token_id p); reflexivity.
Qed.

Lemma decrement_fields (t amt : Z) (p : property_row) :
  token_id (decrement_available t amt p) = token_id p
  /\ available_shares (decrement_available t amt p)
     = if t =? token_id p then available_shares p - amt else available_shares p.
Proof.
  unfold decrement_available. destruct (t =? token_id p); split; reflexivity.
Qed.

Lemma available_after_decrement (t amt : Z) (l : list property_row) :
  available_of t (map (decrement_available t amt) l)
  = available_of t l - amt * Z.of_nat (rows_of_token t l).
Proof.
  induction l as [| p rest IH].
  - simpl. lia.
  - rewrite rows_of_token_cons. cbn [map]. rewrite !available_of_cons.
    destruct (decrement_fields t amt p) as [Ht Ha]. rewrite Ht, Ha, IH.
    destruct (t =? token_id p); [rewrite Nat2Z.inj_succ |]; lia.
Qed.

Lemma available_of_other (t t' amt : Z) (l : list property_row) :
  t' <> t ->
  available_of t' (map (decrement_available t amt) l) = available_of t' l.
Proof.
  intros Hne. induction l as [| p rest IH].
  - reflexivity.
  - cbn [map]. rewrite !available_of_cons.
    destruct (decrement_fields t amt p) as [Ht Ha]. rewrite Ht, Ha, IH.
    destruct (t =? token_id p) eqn:E; [| reflexivity].
    apply Z.eqb_eq in E.
    assert (H : (t' =? token_id p) = false) by (apply Z.eqb_neq; lia).
    rewrite H. reflexivity.
Qed.

Lemma decrement_unknown_token (t amt : Z) (l : list property_row) :
  rows_of_token t l = 0%nat ->
  map (decrement_available t amt) l = l.
Proof.
  unfold rows_of_token. induction l as [| p rest IH]; simpl; intros H.
  - reflexivity.
  - unfold decrement_available at 1.
    destruct (t =? token_id p); [discriminate |].
    rewrite IH by exact H. reflexivity.
Qed.

Lemma held_of_cons (t : Z) (r : portfolio_row) (l : list portfolio_row) :
  held_of t (r :: l)
  = if t =? portfolio_token r then shares_owned r + held_of t l else held_of t l.
Proof.
  reflexivity.
Qed.

Lemma held_of_app (t : Z) (l1 l2 : list portfolio_row) :
  held_of t (l1 ++ l2) = held_of t l1 + held_of t l2.
Proof.
  induction l1 as [| r rest IH].
  - reflexivity.
  - rewrite <- app_comm_cons, !held_of_cons, IH.
    destruct (t =? portfolio_token r); lia.
Qed.

Lemma increment_fields (wallet : string) (t amt now : Z) (r : portfolio_row) :
  portfolio_token (increment_shares wallet t amt now r) = portfolio_token r
  /\ shares_owned (increment_shares wallet t amt now r)
     = if same_holding wallet t r then shares_owned r + amt else shares_owned r.
Proof.
  unfold increment_shares. destruct (same_holding wallet t r); split; reflexivity.
Qed.

Lemma held_after_increment (wallet : string) (t amt now : Z) (l : list portfolio_row) :
  unique_holdings l ->
  In (wallet, t) (map holding_key l) ->
  held_of t (map (increment_shares wallet t amt now) l) = held_of t l + amt.
Proof.
  unfold unique_holdings. induction l as [| r rest IH]; intros Hnd Hin.
  - destruct Hin.
  - cbn [map] in *. inversion Hnd as [| k ks Hnotin Hnd']; subst.
    rewrite !held_of_cons.
    destruct (increment_fields wallet t amt now r) as [Ft Fs]. rewrite Ft, Fs.
    destruct (same_holding wallet t r) eqn:E.
    + unfold same_holding in E. apply andb_true_iff in E. destruct E as [E1 E2].
      apply String.eqb_eq in E1. apply Z.eqb_eq in E2.
      assert (Hno : ~ In (wallet, t) (map holding_key rest)).
      { unfold holding_key at 1 in Hnotin. rewrite <- E1, <- E2 in Hnotin.
        exact Hnotin. }
      rewrite (increment_absent wallet t amt now rest (no_key_find_none _ _ _ Hno)).
      rewrite <- E2. rewrite Z.eqb_refl. lia.
    + destruct Hin as [Heq | Hin].
      * exfalso. unfold holding_key in Heq. inversion Heq; subst.
        unfold same_holding in E. rewrite String.eqb_refl, Z.eqb_refl in E.
        discriminate.
      * rewrite (IH Hnd' Hin). destruct (t =? portfolio_token r); lia.
Qed.

Lemma find_some_key (wallet : string) (token : Z) (l : list portfolio_row)
    (r : portfolio_row) :
  find (same_holding wallet token) l = Some r ->
  In (wallet, token) (map holding_key l).
Proof.
  induction l as [| x rest IH]; simpl; intros H.
  - discriminate.
  - destruct (same_holding wallet token x) eqn:E.
    + left. unfold same_holding in E. apply andb_true_iff in E.
      destruct E as [E1 E2]. apply String.eqb_eq in E1. apply Z.eqb_eq in E2.
      unfold holding_key. rewrite E1, E2. reflexivity.
    + right. apply IH. exact H.
Qed.

Lemma held_after_upsert (wallet : string) (t amt now : Z) (l : list portfolio_row) :
  unique_holdings l ->
  held_of t (upsert_holding wallet t amt now l) = held_of t l + amt.
Proof.
  intros Hnd. unfold upsert_holding.
  destruct (find (same_holding wallet t) l) as [r |] eqn:E.
  - apply held_after_increment; [exact Hnd | eapply find_some_key; exact E].
  - rewrite held_of_app, held_of_cons. cbn [portfolio_token shares_owned].
    rewrite Z.eqb_refl. simpl. lia.
Qed.

Lemma held_of_other (wallet : string) (t t' amt now : Z) (l : list portfolio_row) :
  t' <> t ->
  held_of t' (upsert_holding wallet t amt now l) = held_of t' l.
Proof.
  intros Hne. unfold upsert_holding.
  assert (Hmap : held_of t' (map (increment_shares wallet t amt now) l) = held_of t' l).
  { induction l as [| r rest IH]; [reflexivity |].
    cbn [map]. rewrite !held_of_cons.
    destruct (increment_fields wallet t amt now r) as [Ft Fs]. rewrite Ft, Fs, IH.
    destruct (same_holding wallet t r) eqn:E; [| reflexivity].
    unfold same_holding in E. apply andb_true_iff in E. destruct E as [_ E2].
    apply Z.eqb_eq in E2.
    assert (H : (t' =? portfolio_token r) = false) by (apply Z.eqb_neq; lia).
    rewrite H. reflexivity. }
  destruct (find (same_holding wallet t) l).
  - exact Hmap.
  - rewrite held_of_app. rewrite held_of_cons. cbn [portfolio_token].
    assert (H : (t' =? t) = false) by (apply Z.eqb_neq; exact Hne).
    rewrite H. simpl. lia.
Qed.

Section Shares.

Variable isAddress : string -> bool.

(** X8. A purchase moves shares, it does not make any: when the token
    has its one row in [properties] and holdings are unique, a valid
    purchase processed without a failing request takes [amount] from
    the available shares of the token and adds [amount] to the shares
    held of it, so that their sum is as before; the counts of every
    other token are untouched.  Nothing keeps the available shares
    from going below zero. *)
Theorem shares_are_conserved (ev : DecodedEvent) (now : Z) (w : world) :
  faults w = [] ->
  valid_args isAddress (ev_args ev) = true ->
  rows_of_token (tokenId (ev_args ev)) (properties (database w)) = 1%nat ->
  unique_holdings (user_portfolio (database w)) ->
  exists w' : world,
    handleSharesPurchased isAddress ev now w = Done tt w'
    /\ available_of (tokenId (ev_args ev)) (properties (database w'))
       = available_of (tokenId (ev_args ev)) (properties (database w))
         - amount (ev_args ev)
    /\ held_of (tokenId (ev_args ev)) (user_portfolio (database w'))
       = held_of (tokenId (ev_args ev)) (user_portfolio (database w))
         + amount (ev_args ev)
    /\ (forall t, t <> tokenId (ev_args ev) ->
          available_of t (properties (database w'))
          = available_of t (properties (database w))
          /\ held_of t (user_portfolio (database w'))
             = held_of t (user_portfolio (database w))).
Proof.
  intros Hcalm Hvalid Hone Huniq.
  eexists. split; [apply handler_calm; assumption |]. simpl.
  split; [rewrite available_after_decrement, Hone; lia |].
  split; [apply held_after_upsert; exact Huniq |].
  intros t Hne. split.
  - apply available_of_other. exact Hne.
  - apply held_of_other. exact Hne.
Qed.

(** X9. The update of [properties] on a token that has no row is a
    silent no-op, and the handler goes on: a valid purchase of an
    unknown token, processed without a failing request, returns, leaves
    [properties] as it is, and still credits the buyer's holding with
    [amount]. *)
Theorem unknown_token_is_credited (ev : DecodedEvent) (now : Z) (w : world) :
  faults w = [] ->
  valid_args isAddress (ev_args ev) = true ->
  rows_of_token (tokenId (ev_args ev)) (properties (database w)) = 0%nat ->
  unique_holdings (user_portfolio (database w)) ->
  exists w' : world,
    handleSharesPurchased isAddress ev now w = Done tt w'
    /\ properties (database w') = properties (database w)
    /\ held_of (tokenId (ev_args ev)) (user_portfolio (database w'))
       = held_of (tokenId (ev_args ev)) (user_portfolio (database w))
         + amount (ev_args ev).
Proof.
  intros Hcalm Hvalid Hzero Huniq.
  eexists. split; [apply handler_calm; assumption |]. simpl.
  split; [apply decrement_unknown_token; exact Hzero |].
  apply held_after_upsert. exact Huniq.
Qed.

End Shares.

Lemma shares_are_conserved_witness :
  exists w' : world,
    handleSharesPurchased isHexAddress purchase1 1000 (calm shop_db) = Done tt w'
    /\ available_of 1 (properties (database w')) = 90
    /\ held_of 1 (user_portfolio (database w')) = 10.
Proof.
  destruct (shares_are_conserved isHexAddress purchase1 1000 (calm shop_db))
    as [w' [R [A [H _]]]].
  - reflexivity.
  - vm_compute. reflexivity.
  - reflexivity.
  - constructor.
  - exists w'. split; [exact R |].
    split; (etransitivity; [first [exact A | exact H] | vm_compute; reflexivity]).
Defined.

Lemma unknown_token_is_credited_witness :
  exists w' : world,
    handleSharesPurchased isHexAddress purchase1 1000
      (calm (mkDb [notes_state] [] [mkProperty 7 100] [])) = Done tt w'
    /\ properties (database w') = [mkProperty 7 100]
    /\ held_of 1 (user_portfolio (database w')) = 10.
Proof.
  destruct (unknown_token_is_credited isHexAddress purchase1 1000
              (calm (mkDb [notes_state] [] [mkProperty 7 100] [])))
    as [w' [R [P H]]].
  - reflexivity.
  - vm_compute. reflexivity.
  - reflexivity.
  - constructor.
  - exists w'. split; [exact R |]. split; [exact P |].
    etransitivity; [exact H | vm_compute; reflexivity].
Defined.

(** ** The reorg detector, run again *)

Lemma filter_twice {A : Type} (f : A -> bool) (l : list A) :
  filter f (filter f l) = filter f l.
Proof.
  induction l as [| x rest IH]; simpl.
  - reflexivity.
  - destruct (f x) eqn:E; simpl; rewrite ?E, IH; reflexivity.
Qed.

Lemma upsert_twice (r : indexer_state_row) (l : list indexer_state_row) :
  upsert_state r (upsert_state r l) = upsert_state r l.
Proof.
  induction l as [| x rest IH]; simpl.
  - unfold for_contract. rewrite String.eqb_refl. reflexivity.
  - destruct (for_contract (contract_address r) x) eqn:E; simpl.
    + unfold for_contract. rewrite String.eqb_refl. reflexivity.
    + rewrite E, IH. reflexivity.
Qed.

Lemma rollback_calm (st : indexer_state_row) (ts : Z) (w : world) :
  faults w = [] ->
  rollback st ts w = Done tt (set_database w (rolled_back st ts (database w))).
Proof.
  intros H. destruct w as [d f ap el]. simpl in H. subst f. reflexivity.
Qed.

Lemma detector_mismatch_calm (addr : string) (c : chain) (w : world) :
  faults w = [] ->
  hash_at c (last_checkpoint_block (state_of addr (database w)))
  <> last_checkpoint_hash (state_of addr (database w)) ->
  reorgDetector addr c w
  = Done true
      (set_database w
         (rolled_back (state_of addr (database w))
            (timestamp_at c (last_checkpoint_block (state_of addr (database w))))
            (database w))).
Proof.
  intros Hcalm Hdiff. destruct w as [d f ap el]. simpl in *. subst f.
  unfold reorgDetector, loadState, getBlock, rpc, bind, request. simpl.
  apply String.eqb_neq in Hdiff. rewrite Hdiff.
  rewrite rollback_calm by reflexivity. reflexivity.
Qed.

Lemma state_after_rollback (addr : string) (ts : Z) (d : db) :
  state_of addr (rolled_back (state_of addr d) ts d)
  = set_last_processed (state_of addr d)
                       (last_checkpoint_block (state_of addr d) - 1).
Proof.
  unfold rolled_back, state_of at 1. simpl.
  rewrite <- (state_of_address addr d) at 1.
  change (contract_address (state_of addr d))
    with (contract_address
            (set_last_processed (state_of addr d)
               (last_checkpoint_block (state_of addr d) - 1))).
  rewrite find_upsert_same. reflexivity.
Qed.

Lemma rolled_back_twice (addr : string) (ts : Z) (d : db) :
  rolled_back (state_of addr (rolled_back (state_of addr d) ts d)) ts
              (rolled_back (state_of addr d) ts d)
  = rolled_back (state_of addr d) ts d.
Proof.
  rewrite state_after_rollback. unfold rolled_back. simpl.
  rewrite !filter_twice.
  change (set_last_processed
            (set_last_processed (state_of addr d)
               (last_checkpoint_block (state_of addr d) - 1))
            (last_checkpoint_block (state_of addr d) - 1))
    with (set_last_processed (state_of addr d)
            (last_checkpoint_block (state_of addr d) - 1)).
  rewrite upsert_twice. reflexivity.
Qed.

Lemma detector_twice (addr : string) (c : chain) (w : world) :
  faults w = [] ->
  hash_at c (last_checkpoint_block (state_of addr (database w)))
  <> last_checkpoint_hash (state_of addr (database w)) ->
  exists w1 : world,
    reorgDetector addr c w = Done true w1
    /\ state_of addr (database w1)
       = set_last_processed (state_of addr (database w))
                            (last_checkpoint_block (state_of addr (database w)) - 1)
    /\ reorgDetector addr c w1 = Done true w1.
Proof.
  intros Hcalm Hdiff. eexists. split; [apply detector_mismatch_calm; assumption |].
  simpl. rewrite state_after_rollback. split; [reflexivity |].
  rewrite detector_mismatch_calm.
  - simpl. rewrite state_after_rollback. simpl.
    pose proof (rolled_back_twice addr
                  (timestamp_at c (last_checkpoint_block (state_of addr (database w))))
                  (database w)) as T.
    rewrite state_after_rollback in T. simpl in T. rewrite T.
    destruct w; reflexivity.
  - exact Hcalm.
  - simpl. rewrite state_after_rollback. simpl. exact Hdiff.
Qed.

Section FailedTurn.

Variable isAddress : string -> bool.
Variable decode : RawLog -> decoded.
Variable addr : string.
Variable pair : Z * string.

Lemma stored_request {A : Type} (stmt : db -> error + (A * db)) :
  (forall d a d', stmt d = inr (a, d') -> indexer_state d' = indexer_state d) ->
  keeps (stored addr pair) (request stmt).
Proof.
  intros H. apply keeps_request.
  - intros w f Hw. exact Hw.
  - intros w a d Hw Hs. unfold stored, checkpoint_pair, state_of in *. simpl.
    rewrite (H _ _ _ Hs). exact Hw.
Qed.

Lemma loaded_request {A : Type} (st : indexer_state_row)
    (stmt : db -> error + (A * db)) :
  (forall d a d', stmt d = inr (a, d') -> indexer_state d' = indexer_state d) ->
  hoare (loaded addr pair st) (request stmt)
        (fun _ => loaded addr pair st) (stored addr pair).
Proof.
  intros H. apply hoare_request.
  - intros w f Hw. exact Hw.
  - intros w [Hw _]. exact Hw.
  - intros w [Hw Hst]. destruct (stmt (database w)) as [e | [a d]] eqn:E; [exact Hw |].
    unfold loaded, stored, checkpoint_pair, state_of in *. simpl.
    rewrite (H _ _ _ E). split; assumption.
Qed.

Lemma loadState_loaded :
  hoare (stored addr pair) (loadState addr) (loaded addr pair) (stored addr pair).
Proof.
  unfold loadState. apply hoare_request.
  - intros w f Hw. exact Hw.
  - intros w Hw. exact Hw.
  - intros w Hw. simpl. split; [exact Hw | reflexivity].
Qed.

Lemma rollback_stored (st : indexer_state_row) (ts : Z) :
  hoare (loaded addr pair st) (rollback st ts)
        (fun _ => stored addr pair) (stored addr pair).
Proof.
  unfold rollback.
  apply hoare_bind with (Q := fun _ => (loaded addr pair st)).
  { apply loaded_request. intros d a d' H. inversion H. reflexivity. }
  intros _. apply hoare_bind with (Q := fun _ => (loaded addr pair st)).
  { apply loaded_request. intros d a d' H. inversion H. reflexivity. }
  intros _. unfold saveState. apply hoare_request.
  - intros w f Hw. exact Hw.
  - intros w [Hw _]. exact Hw.
  - intros w [Hw Hst]. cbv beta iota.
    unfold stored, checkpoint_pair in *. cbn [database set_database].
    pose proof (state_of_upsert_same
                  (set_last_processed st (last_checkpoint_block st - 1))
                  (database w)) as T.
    assert (Ha : contract_address
                   (set_last_processed st (last_checkpoint_block st - 1)) = addr).
    { simpl. rewrite Hst. apply state_of_address. }
    rewrite Ha in T. rewrite T. simpl. rewrite Hst. exact Hw.
Qed.

Lemma reorgDetector_stored (c : chain) :
  keeps (stored addr pair) (reorgDetector addr c).
Proof.
  unfold reorgDetector.
  apply hoare_bind with (Q := (loaded addr pair)); [apply loadState_loaded |].
  intros st. apply hoare_bind with (Q := fun _ => (loaded addr pair st)).
  { apply loaded_request. intros d a d' H. inversion H. reflexivity. }
  intros blk. destruct (String.eqb (fst blk) (last_checkpoint_hash st)).
  - apply hoare_ret. intros w [Hw _]. exact Hw.
  - apply hoare_bind with (Q := fun _ => (stored addr pair)); [apply rollback_stored |].
    intros _. apply hoare_ret. intros w Hw. exact Hw.
Qed.

Lemma processLogs_stored (now : Z) (logs : list RawLog) :
  keeps (stored addr pair) (processLogs isAddress decode now logs).
Proof.
  apply processLogs_keeps.
  - intros w el Hw. exact Hw.
  - intros ev now'.
    apply (handler_keeps_indexer_state isAddress
             (fun s => checkpoint_pair addr (mkDb s [] [] []) = pair)).
Qed.

Lemma saveState_throw_stored (r : indexer_state_row) :
  hoare (stored addr pair) (saveState r) (fun _ _ => True) (stored addr pair).
Proof.
  unfold saveState. apply hoare_request.
  - intros w f Hw. exact Hw.
  - intros w Hw. exact Hw.
  - intros w Hw. exact I.
Qed.

Lemma saveCheckpoint_throw_stored (cfg : config) (c : chain) (st : indexer_state_row)
    (toBlock now : Z) :
  hoare (stored addr pair) (saveCheckpoint cfg c st toBlock now)
        (fun _ _ => True) (stored addr pair).
Proof.
  unfold saveCheckpoint. cbv zeta.
  apply hoare_bind with (Q := fun _ => (stored addr pair)).
  { apply stored_request. intros d a d' H. inversion H. reflexivity. }
  intros blk.
  destruct (last_processed_block st / checkpointInterval cfg
            <? toBlock / checkpointInterval cfg).
  - apply hoare_bind with (Q := fun _ => (stored addr pair)).
    { apply stored_request. intros d a d' H. inversion H. reflexivity. }
    intros cblk. apply saveState_throw_stored.
  - apply saveState_throw_stored.
Qed.

(** A turn of the driver that ends in an exception has not written the
    checkpoint. *)
Lemma cycle_throw_stored (cfg : config) (c : chain) (now : Z) :
  hoare (stored addr pair) (cycle isAddress decode cfg addr c now)
        (fun _ _ => True) (stored addr pair).
Proof.
  unfold cycle.
  apply hoare_bind with (Q := fun _ => (stored addr pair)); [apply reorgDetector_stored |].
  intros _. apply hoare_bind with (Q := fun _ => (stored addr pair)).
  { apply stored_request. intros d a d' H. inversion H. reflexivity. }
  intros st. apply hoare_bind with (Q := fun _ => (stored addr pair)).
  { apply stored_request. intros d a d' H. inversion H. reflexivity. }
  intros latest. cbv zeta.
  destruct (nextToBlock cfg latest st <=? last_processed_block st).
  - apply hoare_ret. intros w _. exact I.
  - apply hoare_bind with (Q := fun _ => (stored addr pair)).
    { apply stored_request. intros d a d' H. inversion H. reflexivity. }
    intros logs. apply hoare_bind with (Q := fun _ => (stored addr pair)).
    { apply processLogs_stored. }
    intros _. apply saveCheckpoint_throw_stored.
Qed.

End FailedTurn.

(** X10. The checkpoint of a contract, block and hash, is written only
    by the save at the end of a turn: the rollback rewinds
    [last_processed_block] and leaves it as it is, and so does every
    exception.  So when a turn of the driver ends in an exception,
    whatever it did before (a rollback, part of a batch), and the chain
    of the next run differs from the stored hash at the checkpoint
    block, the next run reports a reorg (again, if the failed turn had
    reported it), rewinds to the block before the checkpoint, and a
    detector run straight after it rolls back again without changing
    anything. *)
Theorem reorg_is_detected_again (isAddress : string -> bool)
    (decode : RawLog -> decoded) (cfg : config) (addr : string) (c c' : chain)
    (now : Z) (w w1 : world) (e : error) :
  cycle isAddress decode cfg addr c now w = Threw e w1 ->
  faults w1 = [] ->
  hash_at c' (last_checkpoint_block (state_of addr (database w)))
  <> last_checkpoint_hash (state_of addr (database w)) ->
  checkpoint_pair addr (database w1) = checkpoint_pair addr (database w)
  /\ exists w2 : world,
       reorgDetector addr c' w1 = Done true w2
       /\ checkpoint_pair addr (database w2) = checkpoint_pair addr (database w)
       /\ last_processed_block (state_of addr (database w2))
          = last_checkpoint_block (state_of addr (database w)) - 1
       /\ reorgDetector addr c' w2 = Done true w2.
Proof.
  intros Hthrow Hcalm Hdiff.
  pose proof (cycle_throw_stored isAddress decode addr
                (checkpoint_pair addr (database w)) cfg c now w eq_refl) as K.
  rewrite Hthrow in K.
  split; [exact K |].
  unfold checkpoint_pair in K. inversion K as [[Kb Kh]].
  destruct (detector_twice addr c' w1 Hcalm) as [w2 [R1 [S R2]]].
  { rewrite Kb, Kh. exact Hdiff. }
  exists w2. split; [exact R1 |].
  unfold checkpoint_pair. rewrite S. simpl. rewrite Kb, Kh.
  split; [reflexivity |]. split; [reflexivity | exact R2].
Qed.

(** X11. The rollback deletes the raw events of every contract at or
    above the checkpoint block of the contract that is rolled back
    ([DELETE FROM blockchain_events WHERE block_number >= 12400] names
    no contract), and rewinds that contract alone: the row of any other
    contract in [indexer_state] is as before, its raw events at or
    above the block are gone. *)
Theorem rollback_reaches_other_contracts (addr other : string) (c : chain) (w : world) :
  faults w = [] ->
  hash_at c (last_checkpoint_block (state_of addr (database w)))
  <> last_checkpoint_hash (state_of addr (database w)) ->
  other <> addr ->
  exists w1 : world,
    reorgDetector addr c w = Done true w1
    /\ state_of other (database w1) = state_of other (database w)
    /\ (forall r, event_contract r = other ->
          last_checkpoint_block (state_of addr (database w)) <= block_number r ->
          ~ In r (blockchain_events (database w1))).
Proof.
  intros Hcalm Hdiff Hother. eexists.
  split; [apply detector_mismatch_calm; assumption |]. simpl. split.
  - unfold state_of, rolled_back. simpl.
    rewrite find_upsert_other; [reflexivity |].
    change (other <> contract_address (state_of addr (database w))).
    rewrite state_of_address. exact Hother.
  - intros r _ Hge Hin. apply filter_In in Hin. destruct Hin as [_ Hlt].
    apply Z.ltb_lt in Hlt. lia.
Qed.

(** X12. A rollback that a failing request interrupts, at whichever of
    its requests, is completed by the next run: the state row has not
    moved, the reorg is detected again, and the database is then the
    one that an undisturbed rollback gives. *)
Theorem interrupted_rollback_is_completed (n : nat) (addr : string) (c : chain)
    (w : world) :
  (n <= 4)%nat ->
  faults w = (repeat false n ++ [true])%list ->
  hash_at c (last_checkpoint_block (state_of addr (database w)))
  <> last_checkpoint_hash (state_of addr (database w)) ->
  exists wi w1 : world,
    reorgDetector addr c w = Threw NetworkError wi
    /\ reorgDetector addr c wi = Done true w1
    /\ database w1
       = rolled_back (state_of addr (database w))
           (timestamp_at c (last_checkpoint_block (state_of addr (database w))))
           (database w).
Proof.
  intros Hn Hf Hdiff. destruct w as [d f ap el]. simpl in *. subst f.
  pose proof Hdiff as Hneq. apply String.eqb_neq in Hneq.
  unfold reorgDetector at 1.
  unfold loadState, getBlock, rpc, rollback, deleteEventsFrom, deletePortfolioSince,
    saveState, bind, request.
  destruct n as [| [| [| [| [| n]]]]]; [| | | | | lia]; simpl; rewrite ?Hneq; simpl;
    eexists; eexists; (split; [reflexivity |]);
    (rewrite detector_mismatch_calm; [| reflexivity | exact Hdiff]);
    (split; [reflexivity |]); unfold rolled_back; simpl;
    rewrite ?filter_twice; reflexivity.
Qed.

Lemma reorg_is_detected_again_witness :
  exists w1 w2 : world,
    cycle isHexAddress sample_decode notes_config propertyShare notes_chain 1000
          rpc_fails_after_rollback
    = Threw NetworkError w1
    /\ last_processed_block (state_of propertyShare (database w1)) = 12399
    /\ reorgDetector propertyShare notes_chain w1 = Done true w2
    /\ checkpoint_pair propertyShare (database w2) = (12400, "0xabc123")
    /\ reorgDetector propertyShare notes_chain w2 = Done true w2.
Proof.
  destruct (reorg_is_detected_again isHexAddress sample_decode notes_config
              propertyShare notes_chain notes_chain 1000 rpc_fails_after_rollback
              (world_of (cycle isHexAddress sample_decode notes_config propertyShare
                               notes_chain 1000 rpc_fails_after_rollback))
              NetworkError)
    as [_ [w2 [R1 [P [_ R2]]]]].
  - vm_compute. reflexivity.
  - vm_compute. reflexivity.
  - vm_compute. discriminate.
  - eexists. exists w2. split; [vm_compute; reflexivity |].
    split; [vm_compute; reflexivity |].
    split; [exact R1 |]. split; [| exact R2].
    rewrite P. vm_compute. reflexivity.
Defined.

Lemma rollback_reaches_other_contracts_witness :
  exists w1 : world,
    reorgDetector propertyShare notes_chain two_contracts = Done true w1
    /\ state_of marketplaceContract (database w1) = marketplace_state
    /\ In marketplace_late (blockchain_events (database two_contracts))
    /\ ~ In marketplace_late (blockchain_events (database w1)).
Proof.
  destruct (rollback_reaches_other_contracts propertyShare marketplaceContract
              notes_chain two_contracts)
    as [w1 [R [S D]]].
  - reflexivity.
  - vm_compute. discriminate.
  - vm_compute. discriminate.
  - exists w1. split; [exact R |]. split.
    + rewrite S. vm_compute. reflexivity.
    + split.
      * right. left. reflexivity.
      * apply (D marketplace_late).
        -- reflexivity.
        -- vm_compute. discriminate.
Defined.

Lemma interrupted_rollback_is_completed_witness :
  exists wi w1 : world,
    reorgDetector propertyShare notes_chain
      (set_faults before_reorg [false; false; false; true])
    = Threw NetworkError wi
    /\ reorgDetector propertyShare notes_chain wi = Done true w1
    /\ database w1 = database after_reorg.
Proof.
  destruct (interrupted_rollback_is_completed 3 propertyShare notes_chain
              (set_faults before_reorg [false; false; false; true]))
    as [wi [w1 [R1 [R2 D]]]].
  - repeat constructor.
  - reflexivity.
  - vm_compute. discriminate.
  - exists wi, w1. split; [exact R1 |]. split; [exact R2 |].
    rewrite D. vm_compute. reflexivity.
Defined.

(** ** The loops over block ranges *)

Section Loops.

Variable isAddress : string -> bool.
Variable decode : RawLog -> decoded.

Lemma processLogs_app (now : Z) (l1 l2 : list RawLog) (w : world) :
  processLogs isAddress decode now (l1 ++ l2) w
  = (processLogs isAddress decode now l1 ;; processLogs isAddress decode now l2) w.
Proof.
  revert w. induction l1 as [| l rest IH]; intros w.
  - reflexivity.
  - simpl. unfold bind.
    destruct (match decode l with
              | Decoded a => handleSharesPurchased isAddress (decoded_event l a) now
              | DecodeError _ => log_error l
              end w) as [u w1 | e w1].
    + rewrite IH. reflexivity.
    + reflexivity.
Qed.

Lemma request_stays_calm {A : Type} (stmt : db -> error + (A * db)) :
  keeps (fun w => faults w = []) (request stmt).
Proof.
  intros w H. unfold request. rewrite H.
  destruct (stmt (database w)) as [e | [a d]]; exact H.
Qed.

Lemma handler_stays_calm (ev : DecodedEvent) (now : Z) :
  keeps (fun w => faults w = []) (handleSharesPurchased isAddress ev now).
Proof.
  unfold handleSharesPurchased.
  apply keeps_bind; [apply validateArgs_keeps |]. intros _.
  apply keeps_bind; [apply request_stays_calm |]. intros _.
  apply keeps_bind; [apply request_stays_calm |]. intros _.
  apply keeps_bind; [intros w H; exact H |]. intros _.
  apply keeps_bind; [apply request_stays_calm |]. intros existing.
  apply keeps_bind; [| intros _ w H; exact H].
  destruct existing; apply request_stays_calm.
Qed.

Lemma processLogs_stays_calm (now : Z) (logs : list RawLog) :
  keeps (fun w => faults w = []) (processLogs isAddress decode now logs).
Proof.
  apply processLogs_keeps.
  - intros w el H. exact H.
  - apply handler_stays_calm.
Qed.

Lemma getLogs_calm (c : chain) (addr : string) (a b : Z) (w : world) :
  faults w = [] ->
  getLogs c addr a b w = Done (filter (in_range addr a b) (chain_logs c)) w.
Proof.
  intros H. unfold getLogs, rpc. rewrite request_calm by exact H.
  destruct w; reflexivity.
Qed.

(** A loop over ranges, when no request fails, is one pass of
    [processLogs] over the logs of its queries, one query after the
    other. *)
Lemma turns_as_one_pass (step width : Z)
    (loop : nat -> Z -> M unit) (now : Z) (c : chain) (addr : string) :
  (forall i, loop O i = ret tt) ->
  (forall n i, loop (S n) i
               = (logs <- getLogs c addr i (i + width) ;;
                  processLogs isAddress decode now logs ;;
                  loop n (i + step))) ->
  forall (turns : nat) (i : Z) (w : world),
    faults w = [] ->
    loop turns i w
    = processLogs isAddress decode now
        (fetched c addr (queryRanges turns i step width)) w.
Proof.
  intros H0 HS turns. induction turns as [| n IH]; intros i w Hcalm.
  - rewrite H0. reflexivity.
  - rewrite HS. unfold fetched. simpl.
    rewrite (bind_done _ _ w w _ (getLogs_calm c addr i (i + width) w Hcalm)).
    rewrite processLogs_app. unfold bind.
    pose proof (processLogs_stays_calm now
                  (filter (in_range addr i (i + width)) (chain_logs c)) w Hcalm) as K.
    destruct (processLogs isAddress decode now
                (filter (in_range addr i (i + width)) (chain_logs c)) w)
      as [u w1 | e w1].
    + apply IH. exact K.
    + reflexivity.
Qed.

(** X13. Both loops of "Batch Processing", when no request fails, are
    one pass of [processLogs] over the concatenation of the logs of
    their queries: the per-block loop over the ranges [i..i] for [i]
    from [first] to [last], the 1000-block loop over the ranges
    [i..i+1000] for [i = first, first + 1000, ...] up to [last]. *)
Theorem loops_as_one_pass (c : chain) (addr : string) (first last now : Z)
    (w : world) :
  faults w = [] ->
  blockLoop isAddress decode c addr first last now w
  = processLogs isAddress decode now (fetched c addr (blockRanges first last)) w
  /\ batchLoop isAddress decode c addr first last now w
     = processLogs isAddress decode now (fetched c addr (batchRanges first last)) w.
Proof.
  intros Hcalm. split.
  - unfold blockLoop, blockRanges.
    apply (turns_as_one_pass 1 0
             (fun n i => blockTurns isAddress decode n c addr i now)).
    + reflexivity.
    + intros n i. simpl. rewrite Z.add_0_r. reflexivity.
    + exact Hcalm.
  - unfold batchLoop, batchRanges.
    apply (turns_as_one_pass 1000 1000
             (fun n i => batchTurns isAddress decode n c addr i now)).
    + reflexivity.
    + reflexivity.
    + exact Hcalm.
Qed.

End Loops.

Lemma loops_as_one_pass_witness :
  batchLoop isHexAddress sample_decode boundary_chain propertyShare 12000 13000 7
            (calm shop_db)
  = processLogs isHexAddress sample_decode 7
      (fetched boundary_chain propertyShare (batchRanges 12000 13000)) (calm shop_db).
Proof.
  apply (loops_as_one_pass isHexAddress sample_decode boundary_chain propertyShare
           12000 13000 7 (calm shop_db)).
  reflexivity.
Defined.

(** ** How often a block is queried *)

Ltac split_tests :=
  repeat match goal with
         | |- context [?a <=? ?b] => destruct (Z.leb_spec a b)
         | |- context [?a <? ?b] => destruct (Z.ltb_spec a b)
         | |- context [?a =? ?b] => destruct (Z.eqb_spec a b)
         end.

Lemma queries_of_cons (b : Z) (r : Z * Z) (l : list (Z * Z)) :
  queries_of b (r :: l)
  = if ((fst r <=? b) && (b <=? snd r))%bool
    then S (queries_of b l) else queries_of b l.
Proof.
  unfold queries_of. simpl.
  destruct ((fst r <=? b) && (b <=? snd r))%bool; reflexivity.
Qed.

Lemma per_block_queries (n : nat) (i b : Z) :
  queries_of b (queryRanges n i 1 0)
  = if ((i <=? b) && (b <? i + Z.of_nat n))%bool then 1%nat else 0%nat.
Proof.
  revert i. induction n as [| n IH]; intros i.
  - simpl. unfold queries_of. simpl. split_tests; simpl; try reflexivity; lia.
  - cbn [queryRanges]. rewrite queries_of_cons, IH. cbn [fst snd].
    rewrite Nat2Z.inj_succ.
    split_tests; simpl; try reflexivity; lia.
Qed.

Lemma batch_queries (n : nat) (i b : Z) :
  queries_of b (queryRanges (S n) i 1000 1000)
  = if ((b <? i) || (i + 1000 * Z.of_nat (S n) <? b))%bool then 0%nat
    else if (((b - i) mod 1000 =? 0) && (i <? b)
             && (b <? i + 1000 * Z.of_nat (S n)))%bool
         then 2%nat else 1%nat.
Proof.
  revert i. induction n as [| n IH]; intros i.
  - cbn [queryRanges]. rewrite queries_of_cons. cbn [fst snd].
    unfold queries_of. simpl filter. simpl List.length.
    change (Z.of_nat 1) with 1.
    split_tests; simpl; try reflexivity; try lia;
      exfalso; Z.div_mod_to_equations; lia.
  - remember (S n) as m eqn:Hm.
    cbn [queryRanges]. rewrite queries_of_cons. cbn [fst snd].
    rewrite IH. rewrite (Nat2Z.inj_succ m).
    replace ((b - (i + 1000)) mod 1000) with ((b - i) mod 1000)
      by (replace (b - (i + 1000)) with (b - i + (-1) * 1000) by lia;
          rewrite Z_mod_plus_full; reflexivity).
    assert (Hpos : 0 < Z.of_nat m) by (subst m; lia).
    split_tests; simpl; try reflexivity; try lia;
      exfalso; Z.div_mod_to_equations; lia.
Qed.

(** X14. The per-block loop asks for every block from [first] to
    [last] exactly once and for no other block. *)
Theorem block_loop_queries_once (first last b : Z) :
  queries_of b (blockRanges first last)
  = if ((first <=? b) && (b <=? last))%bool then 1%nat else 0%nat.
Proof.
  unfold blockRanges. rewrite per_block_queries.
  destruct (Z.le_gt_cases 0 (last - first + 1)) as [H | H].
  - rewrite Z2Nat.id by exact H. split_tests; simpl; try reflexivity; lia.
  - replace (Z.to_nat (last - first + 1)) with 0%nat by lia.
    split_tests; simpl; try reflexivity; lia.
Qed.

(** X15. The 1000-block loop asks for the ranges [i..i+1000] with [i]
    going up by 1000, so consecutive ranges share their boundary
    block, and the last range ends past [last].  For [first <= last]
    and [top] the end of the last range: a block below [first] or above
    [top] is never asked for; a block [first + 1000 k] strictly between
    [first] and [top] is asked for twice; every other block from
    [first] to [top] once; and [last < top]. *)
Theorem batch_loop_queries (first last b : Z) :
  first <= last ->
  let top := first + 1000 * ((last - first) / 1000 + 1) in
  last < top
  /\ queries_of b (batchRanges first last)
     = if ((b <? first) || (top <? b))%bool then 0%nat
       else if (((b - first) mod 1000 =? 0) && (first <? b) && (b <? top))%bool
            then 2%nat else 1%nat.
Proof.
  intros Hle top.
  assert (Hq : 0 <= (last - first) / 1000) by (apply Z.div_pos; lia).
  split.
  - unfold top. Z.div_mod_to_equations. lia.
  - unfold batchRanges, top.
    replace (Z.to_nat ((last - first) / 1000 + 1))
      with (S (Z.to_nat ((last - first) / 1000))) by lia.
    rewrite batch_queries. rewrite Nat2Z.inj_succ, Z2Nat.id by exact Hq.
    reflexivity.
Qed.

Lemma batch_loop_queries_witness :
  queries_of 13000 (batchRanges 12000 13000) = 2%nat
  /\ queries_of 13500 (batchRanges 12000 13000) = 1%nat.
Proof.
  split.
  - destruct (batch_loop_queries 12000 13000 13000) as [_ H].
    + vm_compute. discriminate.
    + rewrite H. vm_compute. reflexivity.
  - destruct (batch_loop_queries 12000 13000 13500) as [_ H].
    + vm_compute. discriminate.
    + rewrite H. vm_compute. reflexivity.
Defined.

Lemma filter_of_filter {A : Type} (f g : A -> bool) (c : bool) (l : list A) :
  (forall x, f x = true -> g x = c) ->
  filter f (filter g l) = if c then filter f l else [].
Proof.
  intros H. induction l as [| x rest IH]; simpl.
  - destruct c; reflexivity.
  - destruct (f x) eqn:Ef.
    + rewrite (H x Ef). destruct c; simpl; rewrite ?Ef, IH; reflexivity.
    + destruct (g x); simpl; rewrite ?Ef; exact IH.
Qed.

Lemma logs_at_in_range (addr : string) (b lo hi : Z) (l : list RawLog) :
  logs_at addr b (filter (in_range addr lo hi) l)
  = if ((lo <=? b) && (b <=? hi))%bool then logs_at addr b l else [].
Proof.
  unfold logs_at. apply filter_of_filter. intros x Hx.
  apply andb_true_iff in Hx. destruct Hx as [Ha Hb].
  apply Z.eqb_eq in Hb. unfold in_range. rewrite Ha, Hb. reflexivity.
Qed.

Lemma logs_at_app (addr : string) (b : Z) (l1 l2 : list RawLog) :
  logs_at addr b (l1 ++ l2) = (logs_at addr b l1 ++ logs_at addr b l2)%list.
Proof.
  unfold logs_at. apply filter_app.
Qed.

Lemma fetched_cons (c : chain) (addr : string) (r : Z * Z) (rest : list (Z * Z)) :
  fetched c addr (r :: rest)
  = (filter (in_range addr (fst r) (snd r)) (chain_logs c) ++ fetched c addr rest)%list.
Proof.
  reflexivity.
Qed.

(** X16. In the pass of a loop the logs of the contract in block [b]
    are delivered once for each query whose range holds [b], each time
    all of them and in their order on the chain: in the 1000-block
    loop the logs of a shared boundary block go through [processLogs]
    twice. *)
Theorem delivered_as_often_as_queried (c : chain) (addr : string) (b : Z)
    (ranges : list (Z * Z)) :
  logs_at addr b (fetched c addr ranges)
  = List.concat (repeat (logs_at addr b (chain_logs c)) (queries_of b ranges)).
Proof.
  induction ranges as [| r rest IH].
  - reflexivity.
  - rewrite fetched_cons, logs_at_app, logs_at_in_range, IH, queries_of_cons.
    destruct ((fst r <=? b) && (b <=? snd r))%bool; reflexivity.
Qed.

(** ** The scripts on the listings *)

Section MarketplaceProofs.

Variable market : Type.
Variable listingCount : market -> Z.
Variable listings : market -> Z -> option listing.
Variable cancelListing : market -> string -> Z -> sent market.

Lemma findFrom_spec (m : market) (signer : string) (n : nat) :
  forall i x : Z,
    In x (findFrom market listings m signer n i)
    <-> i <= x < i + Z.of_nat n
        /\ exists l, listings m x = Some l
                     /\ active l = true
                     /\ sameAddress (seller l) signer = true.
Proof.
  induction n as [| n IH]; intros i x.
  - simpl. split; [intros [] | intros [H _]; lia].
  - cbn [findFrom]. rewrite Nat2Z.inj_succ.
    assert (Hrest : In x (findFrom market listings m signer n (i + 1))
                    <-> i + 1 <= x < i + Z.succ (Z.of_nat n)
                        /\ exists l, listings m x = Some l
                                     /\ active l = true
                                     /\ sameAddress (seller l) signer = true).
    { rewrite IH. split; intros [H1 H2]; (split; [lia | exact H2]). }
    destruct (listings m i) as [l |] eqn:El.
    + destruct (active l && sameAddress (seller l) signer)%bool eqn:Eb.
      * apply andb_true_iff in Eb. destruct Eb as [Ea Es].
        simpl. rewrite Hrest. split.
        -- intros [Hx | [H1 H2]].
           ++ subst x. split; [lia |]. exists l. repeat split; assumption.
           ++ split; [lia | exact H2].
        -- intros [H1 H2]. destruct (Z.eq_dec i x) as [Hx | Hx].
           ++ left. exact Hx.
           ++ right. split; [lia | exact H2].
      * rewrite Hrest. split.
        -- intros [H1 H2]. split; [lia | exact H2].
        -- intros [H1 [l' [Hl [Ha Hs]]]]. split; [| exists l'; repeat split; assumption].
           destruct (Z.eq_dec i x) as [Hx | Hx]; [| lia].
           subst x. rewrite El in Hl. inversion Hl; subst l'.
           rewrite Ha, Hs in Eb. discriminate.
    + rewrite Hrest. split.
      * intros [H1 H2]. split; [lia | exact H2].
      * intros [H1 [l' [Hl Hrest']]]. split; [| exists l'; split; assumption].
        destruct (Z.eq_dec i x) as [Hx | Hx]; [| lia].
        subst x. rewrite El in Hl. discriminate.
Qed.

Lemma findFrom_sorted (m : market) (signer : string) (n : nat) :
  forall i : Z, StronglySorted Z.lt (findFrom market listings m signer n i).
Proof.
  induction n as [| n IH]; intros i.
  - constructor.
  - cbn [findFrom].
    destruct (listings m i) as [l |]; [| apply IH].
    destruct (active l && sameAddress (seller l) signer)%bool; [| apply IH].
    constructor; [apply IH |].
    apply Forall_forall. intros x Hx. apply findFrom_spec in Hx. lia.
Qed.

(** X17. The search for the signer's listings returns, in ascending
    order and each once, exactly the ids from 1 to [listingCount] whose
    listing can be read, is active and has the signer as seller, the
    addresses compared without regard to letter case; an id whose read
    throws is skipped, and a count of zero or less gives no id. *)
Theorem found_listings_are_the_signers (m : market) (signer : string) :
  (forall x : Z,
     In x (findMyActiveListings market listingCount listings m signer)
     <-> 1 <= x <= listingCount m
         /\ exists l, listings m x = Some l
                      /\ active l = true
                      /\ sameAddress (seller l) signer = true)
  /\ StronglySorted Z.lt (findMyActiveListings market listingCount listings m signer).
Proof.
  split; [| apply findFrom_sorted].
  intros x. unfold findMyActiveListings. rewrite findFrom_spec.
  split; intros [H1 H2]; (split; [lia | exact H2]).
Qed.

Lemma cancelOne_step (signer : string) (m m1 : market) (id : option Z) (a : attempt) :
  cancelOne market listings cancelListing signer m id = (a, m1) ->
  (is_call a = true /\ own_cancel market listings cancelListing signer m m1)
  \/ (is_call a = false /\ m1 = m).
Proof.
  unfold cancelOne. intros H.
  destruct id as [i |]; [| inversion H; right; split; reflexivity].
  destruct (listings m i) as [l |] eqn:El;
    [| inversion H; right; split; reflexivity].
  destruct (active l) eqn:Ea; simpl in H;
    [| inversion H; right; split; reflexivity].
  destruct (sameAddress (seller l) signer) eqn:Es; simpl in H;
    [| inversion H; right; split; reflexivity].
  pose proof (own_cancel_step market listings cancelListing signer m i l El Ea Es)
    as Hstep.
  destruct (cancelListing m signer i) as [m' | m']; inversion H; subst;
    left; (split; [reflexivity | exact Hstep]).
Qed.

Lemma cancelAll_steps (signer : string) (ids : list (option Z)) :
  forall (m m' : market) (attempts : list attempt),
    cancelAll market listings cancelListing signer m ids = (attempts, m') ->
    List.length attempts = List.length ids
    /\ own_cancels market listings cancelListing signer
                   (List.length (filter is_call attempts)) m m'.
Proof.
  induction ids as [| id rest IH]; intros m m' attempts H.
  - simpl in H. inversion H; subst. split; [reflexivity | constructor].
  - cbn [cancelAll] in H.
    destruct (cancelOne market listings cancelListing signer m id) as [a m1] eqn:E1.
    destruct (cancelAll market listings cancelListing signer m1 rest)
      as [others m2] eqn:E2.
    inversion H; subst.
    destruct (IH m1 m' others E2) as [Hlen Hsteps].
    split; [simpl; rewrite Hlen; reflexivity |].
    destruct (cancelOne_step signer m m1 id a E1) as [[Ha Hstep] | [Ha Hm]].
    + simpl. rewrite Ha. simpl. econstructor; eassumption.
    + subst m1. simpl. rewrite Ha. exact Hsteps.
Qed.

(** X18. Whatever the listing ids it is given, the cancelling script
    changes the contract only through its calls of [cancelListing],
    and it makes such a call only on a listing that the contract
    shows, at the moment of the call, as active and as the signer's
    own: the final state is reached from the initial one by as many
    such calls as there are attempts that ended "cancelled
    successfully" or in an error of the call, and one attempt is made
    per id.  The script ends without going through the cancelling loop
    in two cases: a call before the loops throws (exit code 1), or no
    ids are in the environment and none was found (exit code 0). *)
Theorem script_cancels_own_listings_only (signer : string)
    (env : option (list (option Z))) (connected : bool) (m : market) :
  match cancelOldListings market listingCount listings cancelListing
                          signer env connected m with
  | Finished _ attempts m' _ =>
      connected = true
      /\ own_cancels market listings cancelListing signer
                     (List.length (filter is_call attempts)) m m'
      /\ (env = None ->
          attempts <> []
          /\ List.length attempts
             = List.length (findMyActiveListings market listingCount listings m signer))
      /\ (forall ids, env = Some ids -> List.length attempts = List.length ids)
  | NoListings _ =>
      connected = true
      /\ env = None
      /\ findMyActiveListings market listingCount listings m signer = []
  | ScriptFailed _ => connected = false
  end.
Proof.
  unfold cancelOldListings, selectListings.
  destruct connected; [| reflexivity].
  destruct env as [ids |].
  - destruct (cancelAll market listings cancelListing signer m ids)
      as [attempts m'] eqn:E.
    destruct (cancelAll_steps signer ids m m' attempts E) as [Hlen Hsteps].
    split; [reflexivity |].
    split; [exact Hsteps |]. split; [discriminate |].
    intros ids' H. inversion H; subst. exact Hlen.
  - destruct (findMyActiveListings market listingCount listings m signer)
      as [| x found] eqn:Ef.
    + repeat split.
    + destruct (cancelAll market listings cancelListing signer m
                  (map Some (x :: found))) as [attempts m'] eqn:E.
      destruct (cancelAll_steps signer _ m m' attempts E) as [Hlen Hsteps].
      split; [reflexivity |].
      split; [exact Hsteps |]. split.
      * intros _. rewrite length_map in Hlen. split; [| exact Hlen].
        intros Hnil. rewrite Hnil in Hlen. discriminate.
      * discriminate.
Qed.

(** X19. "Listings cancelled" in the summary is the number of ids the
    loop went over, not the number of cancellations: it is never less
    than the number of "cancelled successfully" attempts, and equal to
    it only if every id was cancelled; one inactive, foreign or failing
    id makes the summary overstate. *)
Theorem summary_counts_attempts (signer : string) (env : option (list (option Z)))
    (connected : bool) (m m' : market) (attempts : list attempt) (s : summary) :
  cancelOldListings market listingCount listings cancelListing signer env connected m
  = Finished market attempts m' s ->
  listings_cancelled s = List.length attempts
  /\ (List.length (filter is_cancelled attempts) <= listings_cancelled s)%nat
  /\ (List.length (filter is_cancelled attempts) = listings_cancelled s
      <-> forallb is_cancelled attempts = true).
Proof.
  unfold cancelOldListings. intros H.
  destruct connected; [| discriminate].
  destruct (selectListings env
              (findMyActiveListings market listingCount listings m signer))
    as [ids |]; [| discriminate].
  destruct (cancelAll market listings cancelListing signer m ids)
    as [attempts0 m0] eqn:E.
  inversion H; subst. simpl.
  destruct (cancelAll_steps signer ids m m' attempts E) as [Hlen _].
  split; [symmetry; exact Hlen |]. rewrite <- Hlen. clear.
  induction attempts as [| a rest IH]; simpl.
  - split; [apply le_n |]. split; reflexivity.
  - destruct IH as [IH1 IH2].
    destruct (is_cancelled a); simpl.
    + split; [lia |]. rewrite <- IH2. lia.
    + split; [lia |]. split; [lia | discriminate].
Qed.

End MarketplaceProofs.

Lemma summary_counts_attempts_witness :
  exists (attempts : list attempt) (m' : sample_market) (s : summary),
    cancelOldListings sample_market sample_count sample_listings sample_cancel
                      alice (Some [Some 1; Some 2; Some 3]) true three_listings
    = Finished sample_market attempts m' s
    /\ List.length (filter is_cancelled attempts) = 1%nat
    /\ listings_cancelled s = 3%nat
    /\ listings_cancelled s = List.length attempts.
Proof.
  eexists _, _, _.
  split; [vm_compute; reflexivity |].
  split; [reflexivity |]. split; [reflexivity |].
  destruct (summary_counts_attempts sample_market sample_count sample_listings
              sample_cancel alice (Some [Some 1; Some 2; Some 3]) true three_listings
              _ _ _ eq_refl) as [H _].
  exact H.
Defined.
